(** * mcpo-control-panel: the form-field controller of [static/js/main.js]

    A shallow embedding of the browser-side script
    [src/mcp_manager_ui/ui/static/js/main.js] and the properties of its four
    entry points:

    - [toggleServerTypeSpecificFields]  (spec: applyVariantVisibility)
    - [addArgumentField], [addEnvVarField]  (spec: addRepeatableField)
    - [removeDynamicField]  (spec: removeRepeatableField)
    - the [DOMContentLoaded] handler  (spec: page-load orchestrator)

    The DOM is a forest of nodes under the Document; a reference to a node
    held by the script is the node's position in that forest (a path of child
    indices), so two references denote the same object exactly when they are
    the same path.  An element's own data (id, classes, inline style,
    attributes, [value], [required]) is a record; its children are separate
    nodes.  Script code runs in a small state-and-exception monad over the
    page (document, console output, registered listeners); a property access
    on [null] raises, as it does in JavaScript. *)

From stdpp Require Import base list strings option pretty.

Set Warnings "-register-all".

Open Scope string_scope.

Open Scope list_scope.

(* ================================================================== *)
(** * Strings *)
(* ================================================================== *)

Module JsString.

(** [s.slice(n)]: the string without its first [n] characters. *)
Fixpoint slice (n : nat) (s : string) : string :=
  match n, s with
  | 0, _ => s
  | S n', String _ s' => slice n' s'
  | S _, EmptyString => EmptyString
  end.

(** [s.replace(pat, rep)] with a string pattern: only the first (leftmost)
    occurrence of [pat] is replaced; without an occurrence [s] is returned
    as it is. *)
Fixpoint replace (pat rep s : string) : string :=
  if String.prefix pat s then rep +:+ slice (String.length pat) s
  else match s with
       | EmptyString => EmptyString
       | String c s' => String c (replace pat rep s')
       end.

(** [s.endsWith(suffix)], the test behind the selector [[id$="..."]]. *)
Fixpoint endsWith (s suffix : string) : bool :=
  bool_decide (s = suffix) ||
  match s with
  | EmptyString => false
  | String _ s' => endsWith s' suffix
  end.

End JsString.

(* ================================================================== *)
(** * The document object model *)
(* ================================================================== *)

(** The own data of an element.  [style] is the list of inline declarations
    (property, value); [required] and [value] are the IDL properties the
    script reads and writes. *)
Record element := Element {
  localName  : string;
  id         : string;
  classList  : list string;
  style      : list (string * string);
  attributes : list (string * string);
  value      : string;
  required   : bool
}.

Inductive node :=
| Elem (e : element) (childNodes : list node)
| Text (data : string).

(** A reference to a node: child indices from the Document down. *)
Abbreviation path := (list nat).

Definition children (n : node) : list node :=
  match n with
  | Elem _ ch => ch
  | Text _ => []
  end.

Definition as_element (n : node) : option element :=
  match n with
  | Elem e _ => Some e
  | Text _ => None
  end.

Definition on_element (f : element → element) (n : node) : node :=
  match n with
  | Elem e ch => Elem (f e) ch
  | Text s => Text s
  end.

Definition on_children (g : list node → list node) (n : node) : node :=
  match n with
  | Elem e ch => Elem e (g ch)
  | Text s => Text s
  end.

(** Following child indices down from a node. *)
Fixpoint descend (q : path) (n : node) : option node :=
  match q with
  | [] => Some n
  | i :: q' => c ← children n !! i; descend q' c
  end.

(** The node a reference designates; the Document itself ([[]]) is not a
    node of the forest. *)
Definition node_at (p : path) (ns : list node) : option node :=
  match p with
  | [] => None
  | i :: q => n ← ns !! i; descend q n
  end.

Definition element_at (p : path) (ns : list node) : option element :=
  node_at p ns ≫= as_element.

(** Child nodes of the node at [p]; of the Document for [p = []]. *)
Definition children_at (p : path) (ns : list node) : list node :=
  match p with
  | [] => ns
  | _ => from_option children [] (node_at p ns)
  end.

(** In-place update of the node reached from [n] along [q], and of the node
    at [p] in the document. *)
Fixpoint alter_in (f : node → node) (q : path) (n : node) : node :=
  match q with
  | [] => f n
  | i :: q' => on_children (alter (alter_in f q') i) n
  end.

Definition alter_at (f : node → node) (p : path) (ns : list node) : list node :=
  match p with
  | [] => ns
  | i :: q => alter (alter_in f q) i ns
  end.

(** Detach the node at [p] from its parent. *)
Fixpoint remove_at (p : path) (ns : list node) : list node :=
  match p with
  | [] => ns
  | [i] => delete i ns
  | i :: q => alter (on_children (remove_at q)) i ns
  end.

(** Tree order (preorder, depth first): every element with its reference. *)
Fixpoint tree_order (n : node) : list (path * element) :=
  match n with
  | Text _ => []
  | Elem e ch =>
      ([], e) ::
      (fix forest (k : nat) (l : list node) : list (path * element) :=
         match l with
         | [] => []
         | c :: l' => map (λ pe, (k :: pe.1, pe.2)) (tree_order c) ++ forest (S k) l'
         end) 0 ch
  end.

Fixpoint forest_order (k : nat) (l : list node) : list (path * element) :=
  match l with
  | [] => []
  | c :: l' => map (λ pe, (k :: pe.1, pe.2)) (tree_order c) ++ forest_order (S k) l'
  end.

Definition elements_of (doc : list node) : list (path * element) :=
  forest_order 0 doc.

(** The element and its ancestors, innermost first:
    [[i; j; k]], [[i; j]], [[i]]. *)
Fixpoint inclusive_ancestors (p : path) : list path :=
  match p with
  | [] => []
  | i :: q => map (cons i) (inclusive_ancestors q) ++ [[i]]
  end.

Module Dom.

(** [document.getElementById(x)]: the first element in tree order whose ID
    is [x]; an element with an empty id attribute has no ID. *)
Definition getElementById (x : string) (doc : list node) : option path :=
  if decide (x = "") then None
  else fst <$> head (filter (λ pe, id pe.2 = x) (elements_of doc)).

(** [document.querySelectorAll('tag[id$="suffix"]')]. *)
Definition querySelectorAll_tag_id_suffix (tag suffix : string) (doc : list node)
  : list path :=
  fst <$> filter (λ pe, localName pe.2 = tag ∧ JsString.endsWith (id pe.2) suffix = true)
                 (elements_of doc).

Definition has_class (cls : string) (e : element) : bool :=
  bool_decide (cls ∈ classList e).

Definition matches_class (cls : string) (doc : list node) (q : path) : bool :=
  from_option (has_class cls) false (element_at q doc).

(** [el.closest('.cls')]: the nearest of the element and its ancestors that
    carries the class. *)
Definition closest (cls : string) (p : path) (doc : list node) : option path :=
  head (filter (λ q, matches_class cls doc q = true) (inclusive_ancestors p)).

(** [classList.add(t1, t2, ...)]: tokens not yet present are appended. *)
Definition classList_add (tokens : list string) (e : element) : element :=
  Element (localName e) (id e)
          (foldl (λ cl t, if decide (t ∈ cl) then cl else cl ++ [t]) (classList e) tokens)
          (style e) (attributes e) (value e) (required e).

(** [style.setProperty]: an existing declaration is overwritten in place,
    a new one is appended. *)
Fixpoint style_set (prop val : string) (st : list (string * string))
  : list (string * string) :=
  match st with
  | [] => [(prop, val)]
  | (k, v) :: st' =>
      if decide (k = prop) then (k, val) :: st' else (k, v) :: style_set prop val st'
  end.

Fixpoint style_get (prop : string) (st : list (string * string)) : string :=
  match st with
  | [] => ""
  | (k, v) :: st' => if decide (k = prop) then v else style_get prop st'
  end.

Definition set_style (prop val : string) (e : element) : element :=
  Element (localName e) (id e) (classList e) (style_set prop val (style e))
          (attributes e) (value e) (required e).

Definition set_required (b : bool) (e : element) : element :=
  Element (localName e) (id e) (classList e) (style e) (attributes e) (value e) b.

Fixpoint getAttribute (name : string) (attrs : list (string * string)) : option string :=
  match attrs with
  | [] => None
  | (k, v) :: attrs' => if decide (k = name) then Some v else getAttribute name attrs'
  end.

(** [document.createElement(tag)]: a detached element without attributes. *)
Definition createElement (tag : string) : element :=
  Element tag "" [] [] [] "" false.

End Dom.

(** [style.display] of an element, and what the spec calls a visible and a
    hidden section. *)
Definition display (e : element) : string := Dom.style_get "display" (style e).

Definition hidden (e : element) : Prop := display e = "none".

Definition visible (e : element) : Prop := display e ≠ "none".

(* ================================================================== *)
(** * Script execution: page state, console, exceptions *)
(* ================================================================== *)

Inductive level := LOG | DEBUG | WARN.

(** What a running script can observe and change: the document, the console
    output so far (oldest first) and the change listeners registered by the
    page-load handler (target select, captured [formPrefix]). *)
Record page := Page {
  document  : list node;
  console   : list (level * string);
  listeners : list (path * string)
}.

Inductive completion (A : Type) :=
| Normal (a : A) (σ : page)
| Throw (err : string) (σ : page).

Arguments Normal {A} a σ.

Arguments Throw {A} err σ.

Definition JS (A : Type) : Type := page → completion A.

#[global] Instance JS_ret : MRet JS := λ A a σ, Normal a σ.

#[global] Instance JS_bind : MBind JS := λ A B f m σ,
  match m σ with
  | Normal a σ' => f a σ'
  | Throw err σ' => Throw err σ'
  end.

Definition throw {A} (err : string) : JS A := λ σ, Throw err σ.

Definition state_of {A} (c : completion A) : page :=
  match c with
  | Normal _ σ => σ
  | Throw _ σ => σ
  end.

Definition when (c : bool) (m : JS unit) : JS unit :=
  if c then m else mret ().

Fixpoint forEach {A} (f : A → JS unit) (l : list A) : JS unit :=
  match l with
  | [] => mret ()
  | x :: l' => f x;; forEach f l'
  end.

Definition console_emit (lvl : level) (msg : string) : JS unit := λ σ,
  Normal () (Page (document σ) (console σ ++ [(lvl, msg)]) (listeners σ)).

Definition update_document (f : list node → list node) : JS unit := λ σ,
  Normal () (Page (f (document σ)) (console σ) (listeners σ)).

Definition getElementById (x : string) : JS (option path) := λ σ,
  Normal (Dom.getElementById x (document σ)) σ.

(** A JavaScript value that is an element or [null] is an [option path];
    [truthy] is its use as a condition. *)
Definition truthy (r : option path) : bool :=
  match r with
  | Some _ => true
  | None => false
  end.

(** Reading or writing a property through a reference: a TypeError on
    [null]. *)
Definition deref (r : option path) : JS path :=
  match r with
  | Some p => mret p
  | None => throw "TypeError: cannot access a property of null"
  end.

(** [r.style.display = v] *)
Definition assign_style_display (r : option path) (v : string) : JS unit :=
  p ← deref r; update_document (alter_at (on_element (Dom.set_style "display" v)) p).

(** [r.required = b] *)
Definition assign_required (r : option path) (b : bool) : JS unit :=
  p ← deref r; update_document (alter_at (on_element (Dom.set_required b)) p).

(** [r.appendChild(n)] for a detached node [n]. *)
Definition appendChild (r : option path) (n : node) : JS unit :=
  p ← deref r; update_document (alter_at (on_children (λ ch, ch ++ [n])) p).

(** [r.closest('.cls')]; [r] has to be an element of the document, anything
    else has no [closest] method. *)
Definition closest (r : path) (cls : string) : JS (option path) := λ σ,
  match element_at r (document σ) with
  | Some _ => Normal (Dom.closest cls r (document σ)) σ
  | None => Throw "TypeError: closest is not a function" σ
  end.

(** [r.remove()] *)
Definition remove (r : option path) : JS unit :=
  p ← deref r; update_document (remove_at p).

(** Own data of the element behind a reference, for reading [.id] and
    [.value]. *)
Definition read_element (r : path) : JS element := λ σ,
  match element_at r (document σ) with
  | Some e => Normal e σ
  | None => Throw "TypeError: cannot read a property of undefined" σ
  end.

(** [r.addEventListener('change', handler)], the handler closing over
    [formPrefix]. *)
Definition addChangeListener (r : path) (formPrefix : string) : JS unit := λ σ,
  Normal () (Page (document σ) (console σ) (listeners σ ++ [(r, formPrefix)])).

(* ================================================================== *)
(** * main.js *)
(* ================================================================== *)

(** The statement at the top of the script, run when it is loaded. *)
Definition on_script_load : JS unit :=
  console_emit LOG "MCP Manager UI JS loaded.".

(** [function toggleServerTypeSpecificFields(serverType, formPrefix = '')] *)
Definition toggleServerTypeSpecificFields (serverType formPrefix : string) : JS unit :=
  console_emit DEBUG ("[toggleServerTypeSpecificFields] Called for prefix '" +:+ formPrefix
                      +:+ "' with type '" +:+ serverType +:+ "'");;
  stdioFieldsContainer ← getElementById (formPrefix +:+ "stdio-fields-container");
  httpFieldsContainer ← getElementById (formPrefix +:+ "http-fields-container");
  commandInput ← getElementById (formPrefix +:+ "command");
  urlInput ← getElementById (formPrefix +:+ "url");
  when (negb (truthy stdioFieldsContainer))
       (console_emit WARN ("[toggleServerTypeSpecificFields] Element not found: "
                           +:+ formPrefix +:+ "stdio-fields-container"));;
  when (negb (truthy httpFieldsContainer))
       (console_emit WARN ("[toggleServerTypeSpecificFields] Element not found: "
                           +:+ formPrefix +:+ "http-fields-container"));;
  when (truthy stdioFieldsContainer) (assign_style_display stdioFieldsContainer "none");;
  when (truthy httpFieldsContainer) (assign_style_display httpFieldsContainer "none");;
  when (truthy commandInput) (assign_required commandInput false);;
  when (truthy urlInput) (assign_required urlInput false);;
  if bool_decide (serverType = "stdio") && truthy stdioFieldsContainer then
    assign_style_display stdioFieldsContainer "block";;
    when (truthy commandInput) (assign_required commandInput true);;
    console_emit DEBUG ("[toggleServerTypeSpecificFields] Showing stdio fields for "
                        +:+ formPrefix)
  else if (bool_decide (serverType = "sse") || bool_decide (serverType = "streamable_http"))
          && truthy httpFieldsContainer then
    assign_style_display httpFieldsContainer "block";;
    when (truthy urlInput) (assign_required urlInput true);;
    console_emit DEBUG ("[toggleServerTypeSpecificFields] Showing http fields for "
                        +:+ formPrefix)
  else
    console_emit DEBUG ("[toggleServerTypeSpecificFields] No specific type matched or element missing for "
                        +:+ formPrefix +:+ ", hiding both sections.").

(** The row templates are the node lists the HTML parser produces for the
    two template literals assigned to [innerHTML]: white space between tags
    is kept as text nodes ([indent n] is a line break and [n] spaces), inline
    style declarations are kept as written, and the Cyrillic placeholders and
    titles are UTF-8 encoded. *)
Definition indent (n : nat) : node :=
  Text (String (Ascii.ascii_of_nat 10) (String.concat "" (replicate n " "))).

(** An element as the parser builds it from a tag with class, style and
    further attributes. *)
Definition html (tag : string) (cls : list string) (sty attrs : list (string * string))
    (ch : list node) : node :=
  Elem (Element tag "" cls sty attrs "" false) ch.

Definition remove_button (title : string) : node :=
  html "button"
       ["btn-floating"; "btn-small"; "waves-effect"; "waves-light"; "red"; "lighten-1"] []
       [("type", "button"); ("onclick", "removeDynamicField(this)"); ("title", title)]
       [indent 16;
        html "i" ["material-icons"] [] [] [Text "remove"];
        indent 12].

Definition argument_row_html : list node :=
  [indent 8;
   html "div" ["input-field"; "col"; "s10"; "m10"; "l10"]
        [("margin-top", "0"); ("margin-bottom", "0")] []
        [indent 12;
         html "input" [] [] [("type", "text"); ("name", "arg_item[]"); ("placeholder", "Аргумент")] [];
         indent 8];
   indent 8;
   html "div" ["col"; "s2"; "m2"; "l2"] [("padding-top", "10px")] []
        [indent 12; remove_button "Удалить аргумент"; indent 8];
   indent 4].

Definition env_var_row_html : list node :=
  [indent 8;
   html "div" ["input-field"; "col"; "s5"; "m5"; "l5"]
        [("margin-top", "0"); ("margin-bottom", "0")] []
        [indent 12;
         html "input" [] [] [("type", "text"); ("name", "env_key[]"); ("placeholder", "Имя переменной")] [];
         indent 8];
   indent 8;
   html "div" ["input-field"; "col"; "s5"; "m5"; "l5"]
        [("margin-top", "0"); ("margin-bottom", "0")] []
        [indent 12;
         html "input" [] [] [("type", "text"); ("name", "env_value[]"); ("placeholder", "Значение")] [];
         indent 8];
   indent 8;
   html "div" ["col"; "s2"; "m2"; "l2"] [("padding-top", "10px")] []
        [indent 12; remove_button "Удалить переменную"; indent 8];
   indent 4].

(** The detached row both insertions build:
    [createElement('div')], [classList.add('row', 'dynamic-field-row')],
    [style.marginBottom = '5px'], [innerHTML = ...]. *)
Definition new_field_row (inner : list node) : node :=
  let newFieldRow := Dom.createElement "div" in
  let newFieldRow := Dom.classList_add ["row"; "dynamic-field-row"] newFieldRow in
  let newFieldRow := Dom.set_style "margin-bottom" "5px" newFieldRow in
  Elem newFieldRow inner.

(** [function addArgumentField(formPrefix = '')] *)
Definition addArgumentField (formPrefix : string) : JS unit :=
  container ← getElementById (formPrefix +:+ "args-list-container");
  if negb (truthy container) then
    console_emit WARN ("[addArgumentField] Container not found: "
                       +:+ formPrefix +:+ "args-list-container")
  else
    appendChild container (new_field_row argument_row_html).

(** [function addEnvVarField(formPrefix = '')] *)
Definition addEnvVarField (formPrefix : string) : JS unit :=
  container ← getElementById (formPrefix +:+ "env-vars-list-container");
  if negb (truthy container) then
    console_emit WARN ("[addEnvVarField] Container not found: "
                       +:+ formPrefix +:+ "env-vars-list-container")
  else
    appendChild container (new_field_row env_var_row_html).

(** [function removeDynamicField(buttonElement)] *)
Definition removeDynamicField (buttonElement : path) : JS unit :=
  fieldRow ← closest buttonElement "dynamic-field-row";
  if truthy fieldRow then
    remove fieldRow
  else
    console_emit WARN "[removeDynamicField] Could not find parent '.dynamic-field-row' to remove.".

(** The [DOMContentLoaded] handler.  Materialize's [M.AutoInit] and
    [M.updateTextFields] belong to a third-party library; the handler is
    parametric in them. *)
Section PageLoad.

Variable M_AutoInit : JS unit.
Variable M_updateTextFields : path → JS unit.

(** [selectElement.id.replace('server_type', '')] *)
Definition formPrefix_of (select_id : string) : string :=
  JsString.replace "server_type" "" select_id.

(** The body of [serverTypeSelects.forEach(selectElement => ...)]. *)
Definition init_select (selectElement : path) : JS unit :=
  sel ← read_element selectElement;
  let formPrefix := formPrefix_of (id sel) in
  console_emit LOG ("Setting initial fields visibility for prefix: '" +:+ formPrefix
                    +:+ "' based on value: '" +:+ value sel +:+ "'");;
  toggleServerTypeSpecificFields (value sel) formPrefix;;
  addChangeListener selectElement formPrefix;;
  wrapper ← getElementById (formPrefix +:+ "form-wrapper");
  when (truthy wrapper)
       (w ← deref wrapper;
        M_updateTextFields w;;
        console_emit LOG ("Updated text fields for wrapper '" +:+ formPrefix
                          +:+ "form-wrapper'.")).

Definition onDOMContentLoaded : JS unit :=
  M_AutoInit;;
  console_emit LOG "Materialize components initialized via M.AutoInit().";;
  serverTypeSelects ← (λ σ, Normal (Dom.querySelectorAll_tag_id_suffix "select" "server_type"
                                      (document σ)) σ);
  console_emit LOG ("Found " +:+ pretty (length serverTypeSelects)
                    +:+ " server type select(s) for initial state setup.");;
  forEach init_select serverTypeSelects.

End PageLoad.

(** The change listener the handler registers: it logs and re-applies the
    toggle with the select's current value and the captured prefix. *)
Definition on_change (target : path) : JS unit :=
  regs ← (λ σ, Normal (filter (λ l, l.1 = target) (listeners σ)) σ);
  forEach (λ l : path * string,
             this ← read_element target;
             console_emit LOG ("Server type changed for prefix: '" +:+ l.2
                               +:+ "' to value: '" +:+ value this +:+ "'");;
             toggleServerTypeSpecificFields (value this) l.2) regs.

(** The two insertions under the name the spec gives them. *)
Inductive kind := Argument | EnvPair.

Definition addRepeatableField (k : kind) (formPrefix : string) : JS unit :=
  match k with
  | Argument => addArgumentField formPrefix
  | EnvPair => addEnvVarField formPrefix
  end.

Definition container_suffix (k : kind) : string :=
  match k with
  | Argument => "args-list-container"
  | EnvPair => "env-vars-list-container"
  end.

Definition row_html (k : kind) : list node :=
  match k with
  | Argument => argument_row_html
  | EnvPair => env_var_row_html
  end.

(* ================================================================== *)
(** * Notions used in the proofs *)
(* ================================================================== *)

(** The element a path designates inside a node; [[]] is the node itself. *)
Definition sub_element (q : path) (n : node) : option element :=
  descend q n ≫= as_element.

(** The references of the elements with ID [x] are the same in both. *)
Definition same_ids (x : string) (a a' : list (path * element)) : Prop :=
  (filter (λ pe, id pe.2 = x) a).*1 = (filter (λ pe, id pe.2 = x) a').*1.

(** The elements with ID [x] are the same in both, references included. *)
Definition same_matches (x : string) (a a' : list (path * element)) : Prop :=
  filter (λ pe, id pe.2 = x) a = filter (λ pe, id pe.2 = x) a'.

(** The second has some of the elements of the first, in the same order. *)
Definition shrinks_to (a a' : list (path * element)) : Prop :=
  a'.*2 `sublist_of` a.*2.

(** The element [getElementById] resolves to, read through the reference. *)
Definition lookup_element (x : string) (doc : list node) : option element :=
  p ← Dom.getElementById x doc; element_at p doc.

(** No two elements of the document share an ID. *)
Definition unique_ids (doc : list node) : Prop :=
  NoDup (filter (λ x, x ≠ "") ((λ pe, id pe.2) <$> elements_of doc)).

(** The ID suffixes the toggle and the page-load handler use. *)
Definition id_suffixes : list string :=
  ["server_type"; "stdio-fields-container"; "http-fields-container"; "command"; "url"].

(** The two properties the toggle writes, with the element written to. *)
Inductive write :=
| SetDisplay (target : path) (v : string)
| SetRequired (target : path) (b : bool).

Definition target_of (w : write) : path :=
  match w with
  | SetDisplay p _ => p
  | SetRequired p _ => p
  end.

Definition effect (w : write) : element → element :=
  match w with
  | SetDisplay _ v => Dom.set_style "display" v
  | SetRequired _ b => Dom.set_required b
  end.

(** The storage location written: element and property. *)
Definition slot (w : write) : path * bool :=
  match w with
  | SetDisplay p _ => (p, false)
  | SetRequired p _ => (p, true)
  end.

Definition apply_write (w : write) (doc : list node) : list node :=
  alter_at (on_element (effect w)) (target_of w) doc.

Definition apply_writes (ws : list write) (doc : list node) : list node :=
  foldl (λ d w, apply_write w d) doc ws.

(** What a sequence of writes does to the element behind one reference. *)
Definition effects_on (q : path) (ws : list write) (e : element) : element :=
  foldl (λ e w, if decide (target_of w = q) then effect w e else e) e ws.

Definition writes_to (r : option path) (mk : path → write) : list write :=
  match r with
  | Some p => [mk p]
  | None => []
  end.

Definition is_stdio (serverType : string) : bool := bool_decide (serverType = "stdio").

Definition is_http (serverType : string) : bool :=
  bool_decide (serverType = "sse") || bool_decide (serverType = "streamable_http").

(** The writes of one call, in program order, given what the four lookups
    returned. *)
Definition toggle_writes (serverType : string) (s h c u : option path) : list write :=
  writes_to s (λ p, SetDisplay p "none") ++
  writes_to h (λ p, SetDisplay p "none") ++
  writes_to c (λ p, SetRequired p false) ++
  writes_to u (λ p, SetRequired p false) ++
  (if is_stdio serverType && truthy s then
     writes_to s (λ p, SetDisplay p "block") ++ writes_to c (λ p, SetRequired p true)
   else if is_http serverType && truthy h then
     writes_to h (λ p, SetDisplay p "block") ++ writes_to u (λ p, SetRequired p true)
   else []).

(** The console lines of one call. *)
Definition toggle_console (serverType formPrefix : string) (s h : option path)
  : list (level * string) :=
  [(DEBUG, "[toggleServerTypeSpecificFields] Called for prefix '" +:+ formPrefix
           +:+ "' with type '" +:+ serverType +:+ "'")] ++
  (if truthy s then []
   else [(WARN, "[toggleServerTypeSpecificFields] Element not found: "
                +:+ formPrefix +:+ "stdio-fields-container")]) ++
  (if truthy h then []
   else [(WARN, "[toggleServerTypeSpecificFields] Element not found: "
                +:+ formPrefix +:+ "http-fields-container")]) ++
  [(DEBUG,
    if is_stdio serverType && truthy s then
      "[toggleServerTypeSpecificFields] Showing stdio fields for " +:+ formPrefix
    else if is_http serverType && truthy h then
      "[toggleServerTypeSpecificFields] Showing http fields for " +:+ formPrefix
    else
      "[toggleServerTypeSpecificFields] No specific type matched or element missing for "
      +:+ formPrefix +:+ ", hiding both sections.")].

(** Two possibly absent references that never denote the same element. *)
Definition apart (r r' : option path) : Prop :=
  ∀ p q, r = Some p → r' = Some q → p ≠ q.

(* ================================================================== *)
(** * Notions used in the claims *)
(* ================================================================== *)

Inductive operation :=
| Toggle (serverType formPrefix : string)
| Add (k : kind) (formPrefix : string)
| Remove (buttonElement : path).

Definition perform (op : operation) : JS unit :=
  match op with
  | Toggle serverType formPrefix => toggleServerTypeSpecificFields serverType formPrefix
  | Add k formPrefix => addRepeatableField k formPrefix
  | Remove buttonElement => removeDynamicField buttonElement
  end.

(** The spec's invariant for one form instance, read over the elements the
    four lookups resolve to: at most one section is visible and each input
    is required exactly when its section is visible. *)
Definition consistent (doc : list node) (formPrefix : string) : Prop :=
  ∀ s h c u,
    lookup_element (formPrefix +:+ "stdio-fields-container") doc = Some s →
    lookup_element (formPrefix +:+ "http-fields-container") doc = Some h →
    lookup_element (formPrefix +:+ "command") doc = Some c →
    lookup_element (formPrefix +:+ "url") doc = Some u →
    ¬ (visible s ∧ visible h) ∧
    (required c = true ↔ visible s) ∧
    (required u = true ↔ visible h).

(** Text inputs of a subtree in tree order, and the names they submit. *)
Definition is_text_input (e : element) : bool :=
  bool_decide (localName e = "input") &&
  bool_decide (Dom.getAttribute "type" (attributes e) = Some "text").

Definition text_inputs (n : node) : list element :=
  filter (λ e, is_text_input e = true) (tree_order n).*2.

Definition field_names (n : node) : list (option string) :=
  (λ e, Dom.getAttribute "name" (attributes e)) <$> text_inputs n.

(* ================================================================== *)
(** * Sample pages *)
(* ================================================================== *)

Definition plain (tag ident : string) : element := Element tag ident [] [] [] "" false.

(** One server form: the type select, the stdio section with the command
    input and the two repeatable containers, the http section with the url
    input. *)
Definition server_form (formPrefix selected : string) : list node :=
  [Elem (Element "select" (formPrefix +:+ "server_type") [] [] [] selected false) [];
   Elem (plain "div" (formPrefix +:+ "stdio-fields-container"))
        [Elem (plain "input" (formPrefix +:+ "command")) [];
         Elem (plain "div" (formPrefix +:+ "args-list-container")) [];
         Elem (plain "div" (formPrefix +:+ "env-vars-list-container")) []];
   Elem (plain "div" (formPrefix +:+ "http-fields-container"))
        [Elem (plain "input" (formPrefix +:+ "url")) []]].

Definition page_of (body : list node) : page :=
  Page [Elem (plain "html" "") [Elem (plain "body" "") body]] [] [].

Definition single_add_page : page := page_of (server_form "single-add-" "stdio").

Definition two_forms_page : page :=
  page_of (server_form "single-add-" "stdio" ++ server_form "edit-" "sse").

(** A page whose markup has the command input but no stdio section. *)
Definition command_only_page : page :=
  page_of [Elem (plain "input" "command") []].

(** A form whose prefix itself contains "server_type". *)
Definition server_types_edit_page : page := page_of (server_form "server_types-edit-" "stdio").

(** Two copies of the form elements under the same IDs, the first inside a
    removable row. *)
Definition duplicate_ids_page : page :=
  page_of
    [Elem (Element "div" "" ["row"; "dynamic-field-row"] [] [] "" false)
          [Elem (plain "div" "stdio-fields-container") [Elem (plain "input" "command") []];
           Elem (plain "div" "http-fields-container") [Elem (plain "input" "url") []]];
     Elem (plain "div" "stdio-fields-container") [Elem (plain "input" "command") []];
     Elem (plain "div" "http-fields-container") [Elem (plain "input" "url") []]].

Definition duplicate_ids_toggled : page :=
  state_of (toggleServerTypeSpecificFields "stdio" "" duplicate_ids_page).

(** The page after the toggle and one inserted argument row. *)
Definition single_add_toggled : page :=
  state_of (toggleServerTypeSpecificFields "stdio" "single-add-" single_add_page).

Definition single_add_with_row : page :=
  state_of (perform (Add Argument "single-add-") single_add_toggled).

(** Both sections and the url input, but no command input. *)
Definition no_command_page : page :=
  page_of
    [Elem (plain "div" "stdio-fields-container") [];
     Elem (plain "div" "http-fields-container") [Elem (plain "input" "url") []]].

(* ================================================================== *)
(** * Notions used in the further properties *)
(* ================================================================== *)

(** The four ID suffixes the toggle looks up. *)
Definition toggle_suffixes : list string :=
  ["stdio-fields-container"; "http-fields-container"; "command"; "url"].

(** Two element records that differ at most in [style.display] and
    [required]. *)
Definition same_but_display_required (e e' : element) : Prop :=
  localName e' = localName e ∧ id e' = id e ∧ classList e' = classList e ∧
  attributes e' = attributes e ∧ value e' = value e ∧
  ∀ prop, prop ≠ "display" → Dom.style_get prop (style e') = Dom.style_get prop (style e).

(** The page after two inserted argument rows. *)
Definition single_add_two_rows : page :=
  state_of (forEach (λ _ : (), addRepeatableField Argument "single-add-") (replicate 2 ())
              single_add_page).

(** [s.includes(pat)] *)
Fixpoint includes (s pat : string) : bool :=
  String.prefix pat s ||
  match s with
  | EmptyString => false
  | String _ s' => includes s' pat
  end.

(** What the handler reads from a select: its id and its value. *)
Definition select_key (e : element) : string * string := (id e, value e).

(** Every reference designates an element with the same id and value in
    both documents, or an element in neither. *)
Definition keys_preserved (doc doc' : list node) : Prop :=
  ∀ q, select_key <$> element_at q doc' = select_key <$> element_at q doc.

(** The selects the handler discovers, in document order. *)
Definition discovered (doc : list node) : list (path * element) :=
  filter (λ pe, localName pe.2 = "select" ∧ JsString.endsWith (id pe.2) "server_type" = true)
         (elements_of doc).

(** The single-add page after page load, with Materialize doing nothing, and
    after the user picked "sse" in its select. *)
Definition single_add_loaded : page :=
  state_of (onDOMContentLoaded (mret ()) (λ _, mret ()) single_add_page).

Definition single_add_sse_picked : page :=
  Page (alter_at (on_element (λ e, Element (localName e) (id e) (classList e) (style e)
                                           (attributes e) "sse" (required e)))
                 [0; 0; 0] (document single_add_loaded))
       (console single_add_loaded) (listeners single_add_loaded).

(** What a lookup by ID finds in the second document was found in the first
    one too, with the same display and the same required flag. *)
Definition lookups_preserved (doc doc' : list node) : Prop :=
  ∀ x e', lookup_element x doc' = Some e' →
          ∃ e, lookup_element x doc = Some e ∧ display e' = display e ∧
               required e' = required e.

(* ================================================================== *)
(** * Facts about the document tree *)
(* ================================================================== *)

Lemma node_forest_ind (P : node → Prop) :
  (∀ s, P (Text s)) →
  (∀ e ch, Forall P ch → P (Elem e ch)) →
  ∀ n, P n.
Proof.
  intros HT HE. fix IH 1. intros [e ch|s]; [|apply HT].
  apply HE. induction ch as [|c ch IHch]; constructor; [apply IH|exact IHch].
Qed.

Lemma tree_order_Elem e ch : tree_order (Elem e ch) = ([], e) :: forest_order 0 ch.
Proof. reflexivity. Qed.

Lemma forest_order_app k l1 l2 :
  forest_order k (l1 ++ l2) = forest_order k l1 ++ forest_order (k + length l1) l2.
Proof.
  revert k. induction l1 as [|c l1 IH]; intros k; simpl.
  - by rewrite Nat.add_0_r.
  - rewrite IH, <- app_assoc. do 3 f_equal. lia.
Qed.

Lemma element_at_cons i q ns :
  element_at (i :: q) ns = n ← ns !! i; sub_element q n.
Proof. unfold element_at, sub_element. simpl. by destruct (ns !! i). Qed.

Lemma sub_element_cons i q n :
  sub_element (i :: q) n = c ← children n !! i; sub_element q c.
Proof. unfold sub_element. simpl. by destruct (children n !! i). Qed.

Lemma descend_app a q n :
  descend (a ++ q) n = m ← descend a n; descend q m.
Proof.
  revert n. induction a as [|i a IH]; intros n; simpl; [done|].
  destruct (children n !! i) as [c|]; simpl; [apply IH|done].
Qed.

Lemma node_at_app a q ns :
  a ≠ [] → node_at (a ++ q) ns = m ← node_at a ns; descend q m.
Proof.
  destruct a as [|i a]; [done|]. intros _. simpl.
  destruct (ns !! i) as [n|]; simpl; [apply descend_app|done].
Qed.

Lemma element_at_app a q ns :
  a ≠ [] → element_at (a ++ q) ns = m ← node_at a ns; sub_element q m.
Proof.
  intros Ha. unfold element_at, sub_element. rewrite node_at_app by done.
  by destruct (node_at a ns).
Qed.

Lemma tree_order_sound n q e :
  (q, e) ∈ tree_order n → sub_element q n = Some e.
Proof.
  revert q e. induction n as [s|e0 ch IH] using node_forest_ind; intros q e Hin.
  - by apply elem_of_nil in Hin.
  - rewrite tree_order_Elem in Hin. apply elem_of_cons in Hin as [Heq|Hin].
    + by simplify_eq.
    + assert (∀ k, (q, e) ∈ forest_order k ch →
                   ∃ i q', q = (k + i) :: q' ∧ (c ← ch !! i; sub_element q' c) = Some e) as Hf.
      { clear Hin. induction IH as [|c ch Hc _ IHch]; intros k Hin; simpl in Hin.
        - by apply elem_of_nil in Hin.
        - apply elem_of_app in Hin as [Hin|Hin].
          + apply list_elem_of_fmap in Hin as [[q' e'] [? Hin]]. simplify_eq/=.
            exists 0, q'. rewrite Nat.add_0_r. split; [done|]. by apply Hc.
          + destruct (IHch _ Hin) as (i & q' & -> & Hq).
            exists (S i), q'. split; [f_equal; lia|done]. }
      destruct (Hf 0 Hin) as (i & q' & -> & Hq).
      by rewrite sub_element_cons.
Qed.

Lemma forest_order_sound k ns p e :
  (p, e) ∈ forest_order k ns →
  ∃ i q, p = (k + i) :: q ∧ element_at (i :: q) ns = Some e.
Proof.
  revert k. induction ns as [|c ns IH]; intros k Hin; simpl in Hin.
  - by apply elem_of_nil in Hin.
  - apply elem_of_app in Hin as [Hin|Hin].
    + apply list_elem_of_fmap in Hin as [[q' e'] [? Hin]]. simplify_eq/=.
      exists 0, q'. rewrite Nat.add_0_r. split; [done|].
      rewrite element_at_cons. simpl. by apply tree_order_sound.
    + destruct (IH _ Hin) as (i & q' & -> & Hq).
      exists (S i), q'. split; [f_equal; lia|].
      by rewrite element_at_cons in *.
Qed.

Lemma elements_of_sound doc p e :
  (p, e) ∈ elements_of doc → element_at p doc = Some e.
Proof.
  intros Hin. by destruct (forest_order_sound _ _ _ _ Hin) as (i & q & -> & Hq).
Qed.

Lemma forest_order_complete k ns i c q e :
  ns !! i = Some c → (q, e) ∈ tree_order c → ((k + i) :: q, e) ∈ forest_order k ns.
Proof.
  revert k i. induction ns as [|c' ns IH]; intros k [|i] Hi Hin; simplify_eq/=.
  - apply elem_of_app. left. apply list_elem_of_fmap. exists (q, e).
    by rewrite Nat.add_0_r.
  - apply elem_of_app. right. replace (k + S i) with (S k + i) by lia. by apply IH.
Qed.

Lemma tree_order_complete q n e :
  sub_element q n = Some e → (q, e) ∈ tree_order n.
Proof.
  revert n. induction q as [|i q IH]; intros n Hq.
  - unfold sub_element in Hq. destruct n as [e0 ch|]; simplify_eq/=.
    apply elem_of_cons. by left.
  - rewrite sub_element_cons in Hq.
    destruct n as [e0 ch|]; simpl in Hq; [|done].
    destruct (ch !! i) as [c|] eqn:Hi; simpl in Hq; [|done].
    rewrite tree_order_Elem. apply elem_of_cons. right.
    apply (forest_order_complete 0 ch i c); [done|]. by apply IH.
Qed.

Lemma descend_alter_in f q n :
  descend q (alter_in f q n) = f <$> descend q n.
Proof.
  revert n. induction q as [|i q IH]; intros n; simpl; [done|].
  destruct n as [e ch|s]; simpl; [|done].
  rewrite list_lookup_alter_eq. destruct (ch !! i) as [c|]; simpl; [apply IH|done].
Qed.

Lemma node_at_alter_at f p ns :
  node_at p (alter_at f p ns) = f <$> node_at p ns.
Proof.
  destruct p as [|i q]; simpl; [done|].
  rewrite list_lookup_alter_eq. destruct (ns !! i) as [n|]; simpl; [apply descend_alter_in|done].
Qed.

Lemma sub_element_alter_in_ne f p q n :
  q ≠ p → sub_element q (alter_in (on_element f) p n) = sub_element q n.
Proof.
  revert q n. induction p as [|i p IH]; intros [|j q] n Hne; try done.
  - rewrite !sub_element_cons. by destruct n.
  - by destruct n.
  - rewrite !sub_element_cons. destruct n as [e ch|s]; simpl; [|done].
    destruct (decide (i = j)) as [->|Hij].
    + rewrite list_lookup_alter_eq. destruct (ch !! j) as [c|]; simpl; [|done].
      apply IH. congruence.
    + by rewrite list_lookup_alter_ne.
Qed.

Lemma element_at_alter_at_ne f p q ns :
  q ≠ p → element_at q (alter_at (on_element f) p ns) = element_at q ns.
Proof.
  destruct p as [|i p], q as [|j q]; intros Hne; try done.
  rewrite !element_at_cons. simpl.
  destruct (decide (i = j)) as [->|Hij].
  - rewrite list_lookup_alter_eq. destruct (ns !! j) as [c|]; simpl; [|done].
    apply sub_element_alter_in_ne. congruence.
  - by rewrite list_lookup_alter_ne.
Qed.

Lemma element_at_alter_at_eq f p ns :
  element_at p (alter_at (on_element f) p ns) = f <$> element_at p ns.
Proof.
  unfold element_at. rewrite node_at_alter_at.
  by destruct (node_at p ns) as [[]|].
Qed.

(* ================================================================== *)
(** * How updates change the tree order *)
(* ================================================================== *)

(** ** How updates change the tree order

    Three relations between the tree order before and after an update; each
    is closed under the way [forest_order] assembles its result, so it lifts
    from the updated node to the whole document. *)

Section forest_congruence.

Context (R : relation (list (path * element))).
Hypothesis R_refl : ∀ a, R a a.
Hypothesis R_app : ∀ a a' b b', R a a' → R b b' → R (a ++ b) (a' ++ b').
Hypothesis R_shift : ∀ k a a',
  R a a' → R (map (λ pe, (k :: pe.1, pe.2)) a) (map (λ pe, (k :: pe.1, pe.2)) a').

Lemma forest_order_alter_rel f i l k :
  (∀ c, l !! i = Some c → R (tree_order c) (tree_order (f c))) →
  R (forest_order k l) (forest_order k (alter f i l)).
Proof.
  revert i k. induction l as [|c l IH]; intros [|i] k Hf; simpl; try apply R_refl.
  - apply R_app; [apply R_shift, Hf; done|apply R_refl].
  - apply R_app; [apply R_refl|apply IH, Hf].
Qed.

Lemma tree_order_on_children_rel g n :
  R (forest_order 0 (children n)) (forest_order 0 (g (children n))) →
  R (tree_order n) (tree_order (on_children g n)).
Proof.
  destruct n as [e ch|s]; cbn [on_children children]; [|intros; apply R_refl].
  intros H. rewrite !tree_order_Elem. apply (R_app [_] [_]); [apply R_refl|exact H].
Qed.

Lemma tree_order_alter_in_rel f q :
  (∀ c, R (tree_order c) (tree_order (f c))) →
  ∀ n, R (tree_order n) (tree_order (alter_in f q n)).
Proof.
  intros Hf. induction q as [|i q IH]; intros n; cbn [alter_in]; [apply Hf|].
  apply tree_order_on_children_rel, forest_order_alter_rel. intros c _. apply IH.
Qed.

Lemma forest_order_alter_at_rel f p ns k :
  (∀ c, R (tree_order c) (tree_order (f c))) →
  R (forest_order k ns) (forest_order k (alter_at f p ns)).
Proof.
  intros Hf. destruct p as [|i q]; cbn [alter_at]; [apply R_refl|].
  apply forest_order_alter_rel. intros c _. by apply tree_order_alter_in_rel.
Qed.

Lemma forest_order_remove_at_rel p :
  (∀ i l k, R (forest_order k l) (forest_order k (delete i l))) →
  ∀ ns k, R (forest_order k ns) (forest_order k (remove_at p ns)).
Proof.
  intros Hd. induction p as [|i q IH]; intros ns k; [apply R_refl|].
  destruct q as [|j q]; [apply Hd|].
  change (remove_at (i :: j :: q) ns)
    with (alter (on_children (remove_at (j :: q))) i ns).
  apply forest_order_alter_rel. intros c _.
  apply tree_order_on_children_rel, IH.
Qed.

End forest_congruence.

Lemma filter_fmap_list {A B} (f : A → B) (P : B → Prop) `{!∀ y, Decision (P y)}
    (l : list A) :
  filter P (f <$> l) = f <$> filter (λ x, P (f x)) l.
Proof.
  induction l as [|x l IH]; [done|]. rewrite fmap_cons, !filter_cons.
  destruct (decide (P (f x))); rewrite IH; done.
Qed.

Lemma filter_sublist_mono {A} (P : A → Prop) `{!∀ y, Decision (P y)} (l1 l2 : list A) :
  l1 `sublist_of` l2 → filter P l1 `sublist_of` filter P l2.
Proof.
  induction 1 as [|x l1 l2 _ IH|x l1 l2 _ IH]; [constructor|..];
    rewrite ?filter_cons; destruct (decide (P x)); first [done|by constructor].
Qed.

Lemma same_ids_refl x a : same_ids x a a.
Proof. done. Qed.

Lemma same_ids_app x a a' b b' :
  same_ids x a a' → same_ids x b b' → same_ids x (a ++ b) (a' ++ b').
Proof. unfold same_ids. intros Ha Hb. by rewrite !filter_app, !fmap_app, Ha, Hb. Qed.

Lemma same_ids_shift x k a a' :
  same_ids x a a' →
  same_ids x (map (λ pe, (k :: pe.1, pe.2)) a) (map (λ pe, (k :: pe.1, pe.2)) a').
Proof.
  unfold same_ids. intros H.
  change (map (λ pe : path * element, (k :: pe.1, pe.2)))
    with (fmap (M:=list) (λ pe : path * element, (k :: pe.1, pe.2))).
  rewrite !filter_fmap_list. cbn [snd]. rewrite <- !list_fmap_compose.
  pose proof (f_equal (fmap (cons k)) H) as H'.
  rewrite <- !list_fmap_compose in H'. exact H'.
Qed.

Lemma same_matches_refl x a : same_matches x a a.
Proof. done. Qed.

Lemma same_matches_app x a a' b b' :
  same_matches x a a' → same_matches x b b' → same_matches x (a ++ b) (a' ++ b').
Proof. unfold same_matches. intros Ha Hb. by rewrite !filter_app, Ha, Hb. Qed.

Lemma same_matches_shift x k a a' :
  same_matches x a a' →
  same_matches x (map (λ pe, (k :: pe.1, pe.2)) a) (map (λ pe, (k :: pe.1, pe.2)) a').
Proof.
  unfold same_matches. intros H.
  change (map (λ pe : path * element, (k :: pe.1, pe.2)))
    with (fmap (M:=list) (λ pe : path * element, (k :: pe.1, pe.2))).
  rewrite !filter_fmap_list. cbn [snd].
  exact (f_equal (fmap (λ pe : path * element, (k :: pe.1, pe.2))) H).
Qed.

Lemma shrinks_to_refl a : shrinks_to a a.
Proof. unfold shrinks_to. reflexivity. Qed.

Lemma shrinks_to_app a a' b b' :
  shrinks_to a a' → shrinks_to b b' → shrinks_to (a ++ b) (a' ++ b').
Proof. unfold shrinks_to. intros Ha Hb. rewrite !fmap_app. by apply sublist_app. Qed.

Lemma shrinks_to_shift k a a' :
  shrinks_to a a' →
  shrinks_to (map (λ pe, (k :: pe.1, pe.2)) a) (map (λ pe, (k :: pe.1, pe.2)) a').
Proof.
  unfold shrinks_to. intros H.
  change (map (λ pe : path * element, (k :: pe.1, pe.2)))
    with (fmap (M:=list) (λ pe : path * element, (k :: pe.1, pe.2))).
  rewrite <- !list_fmap_compose. exact H.
Qed.

Lemma forest_order_delete_shrinks i l k :
  shrinks_to (forest_order k l) (forest_order k (delete i l)).
Proof.
  revert i k. induction l as [|c l IH]; intros [|i] k; simpl;
    try apply shrinks_to_refl.
  - unfold shrinks_to. rewrite fmap_app. apply sublist_inserts_l.
    clear. revert k. induction l as [|c l IH]; intros k; simpl; [reflexivity|].
    rewrite !fmap_app. apply sublist_app; [|apply IH].
    change (map (λ pe : path * element, (S k :: pe.1, pe.2)))
      with (fmap (M:=list) (λ pe : path * element, (S k :: pe.1, pe.2))).
    change (map (λ pe : path * element, (k :: pe.1, pe.2)))
      with (fmap (M:=list) (λ pe : path * element, (k :: pe.1, pe.2))).
    by rewrite <- !list_fmap_compose.
  - apply shrinks_to_app; [apply shrinks_to_refl|apply IH].
Qed.

(** Removing a subtree leaves a sub-sequence of the elements. *)
Lemma elements_of_remove_at p doc :
  (elements_of (remove_at p doc)).*2 `sublist_of` (elements_of doc).*2.
Proof.
  apply (forest_order_remove_at_rel shrinks_to shrinks_to_refl shrinks_to_app
           shrinks_to_shift p forest_order_delete_shrinks doc 0).
Qed.

(** Writing a property that is not the id keeps every reference found by
    ID. *)
Lemma elements_of_alter_element x f p doc :
  (∀ e, id (f e) = id e) →
  same_ids x (elements_of doc) (elements_of (alter_at (on_element f) p doc)).
Proof.
  intros Hf.
  apply (forest_order_alter_at_rel (same_ids x) (same_ids_refl x) (same_ids_app x)
           (same_ids_shift x)).
  intros [e ch|s]; [|done]. cbn [on_element]. rewrite !tree_order_Elem.
  unfold same_ids. rewrite !filter_cons. cbn [snd]. rewrite Hf.
  by destruct (decide (id e = x)).
Qed.

(** Appending a node none of whose elements has ID [x] keeps the elements
    with that ID. *)
Lemma elements_of_append x r p doc :
  filter (λ pe, id pe.2 = x) (tree_order r) = [] →
  same_matches x (elements_of doc)
               (elements_of (alter_at (on_children (λ ch, ch ++ [r])) p doc)).
Proof.
  intros Hr.
  apply (forest_order_alter_at_rel (same_matches x) (same_matches_refl x)
           (same_matches_app x) (same_matches_shift x)).
  intros [e ch|s]; [|done]. cbn [on_children]. rewrite !tree_order_Elem.
  unfold same_matches. rewrite !filter_cons, forest_order_app, filter_app.
  cbn [forest_order]. rewrite app_nil_r.
  change (map (λ pe : path * element, (0 + length ch :: pe.1, pe.2)))
    with (fmap (M:=list) (λ pe : path * element, (0 + length ch :: pe.1, pe.2))).
  rewrite filter_fmap_list. cbn [snd]. rewrite Hr. cbn [fmap list_fmap].
  by rewrite app_nil_r.
Qed.

(* ================================================================== *)
(** * Lookup by ID *)
(* ================================================================== *)

Lemma head_fmap_list {A B} (f : A → B) (l : list A) : head (f <$> l) = f <$> head l.
Proof. by destruct l. Qed.

Lemma getElementById_sound x doc p :
  Dom.getElementById x doc = Some p →
  ∃ e, element_at p doc = Some e ∧ id e = x.
Proof.
  unfold Dom.getElementById. case_decide; [done|].
  destruct (head _) as [[p' e]|] eqn:Hh; intros ?; simplify_eq/=.
  apply head_Some_elem_of, list_elem_of_filter in Hh as [Hid Hin].
  exists e. split; [by apply elements_of_sound|done].
Qed.

Lemma getElementById_nonempty x doc p : Dom.getElementById x doc = Some p → x ≠ "".
Proof. unfold Dom.getElementById. by case_decide. Qed.

Lemma lookup_element_spec x doc :
  x ≠ "" →
  lookup_element x doc = head (filter (λ e, id e = x) (elements_of doc).*2).
Proof.
  intros Hx. rewrite filter_fmap_list, head_fmap_list.
  unfold lookup_element, Dom.getElementById. rewrite decide_False by done.
  destruct (head _) as [[p e]|] eqn:Hh; simpl; [|done].
  apply head_Some_elem_of, list_elem_of_filter in Hh as [_ Hin].
  by apply elements_of_sound.
Qed.

Lemma lookup_element_id x doc e : lookup_element x doc = Some e → id e = x.
Proof.
  unfold lookup_element. destruct (Dom.getElementById x doc) as [p|] eqn:Hp; [|done].
  simpl. intros He. destruct (getElementById_sound _ _ _ Hp) as (e' & He' & Hid).
  congruence.
Qed.

Lemma getElementById_alter_element x f p doc :
  (∀ e, id (f e) = id e) →
  Dom.getElementById x (alter_at (on_element f) p doc) = Dom.getElementById x doc.
Proof.
  intros Hf. unfold Dom.getElementById. case_decide; [done|].
  rewrite <- !head_fmap_list. f_equal. symmetry. by apply elements_of_alter_element.
Qed.

Lemma lookup_element_append x r p doc :
  filter (λ pe, id pe.2 = x) (tree_order r) = [] →
  lookup_element x (alter_at (on_children (λ ch, ch ++ [r])) p doc) = lookup_element x doc.
Proof.
  intros Hr. destruct (decide (x = "")) as [->|Hx].
  { unfold lookup_element, Dom.getElementById. by rewrite !decide_True. }
  rewrite !lookup_element_spec by done. rewrite !filter_fmap_list.
  by rewrite <- (elements_of_append x r p doc Hr).
Qed.

Lemma NoDup_ids_filter (l : list element) x :
  NoDup (filter (λ y, y ≠ "") (id <$> l)) → x ≠ "" →
  (length (filter (λ e, id e = x) l) ≤ 1)%nat.
Proof.
  intros Hnd Hx. induction l as [|e l IH]; [simpl; lia|].
  rewrite fmap_cons, filter_cons in Hnd. rewrite filter_cons.
  destruct (decide (id e = x)) as [Heq|Hne].
  - rewrite decide_True in Hnd by congruence.
    apply NoDup_cons in Hnd as [Hnin _].
    destruct (filter (λ e0, id e0 = x) l) as [|e' l'] eqn:Hf; [simpl; lia|].
    exfalso. apply Hnin.
    assert (e' ∈ filter (λ e0, id e0 = x) l) as He' by (rewrite Hf; left).
    apply list_elem_of_filter in He' as [Hid He'].
    apply list_elem_of_filter. split; [congruence|].
    apply list_elem_of_fmap. exists e'. split; [congruence|done].
  - apply IH. destruct (decide (id e ≠ "")); [by apply NoDup_cons in Hnd as [_ ?]|done].
Qed.

Lemma unique_ids_matches doc x :
  unique_ids doc → x ≠ "" →
  (length (filter (λ e, id e = x) (elements_of doc).*2) ≤ 1)%nat.
Proof.
  intros Hu Hx. apply NoDup_ids_filter; [|done].
  unfold unique_ids in Hu. by rewrite <- list_fmap_compose.
Qed.

Lemma sublist_head_short {A} (l' l : list A) a :
  l' `sublist_of` l → (length l ≤ 1)%nat → head l' = Some a → head l = Some a.
Proof.
  intros Hs Hl Hh. destruct l' as [|a' l']; simplify_eq/=.
  apply sublist_cons_l in Hs as (k1 & k2 & -> & _).
  destruct k1 as [|b k1]; [done|]. rewrite length_app in Hl. simpl in Hl. lia.
Qed.

(** Without duplicate IDs, what a lookup finds after a removal is what it
    found before. *)
Lemma lookup_element_remove_at x p doc e :
  unique_ids doc →
  lookup_element x (remove_at p doc) = Some e → lookup_element x doc = Some e.
Proof.
  intros Hu. destruct (decide (x = "")) as [->|Hx].
  { unfold lookup_element, Dom.getElementById. by rewrite !decide_True. }
  rewrite !lookup_element_spec by done.
  apply sublist_head_short; [|by apply unique_ids_matches].
  apply filter_sublist_mono, elements_of_remove_at.
Qed.

(* ================================================================== *)
(** * Element IDs of a form instance *)
(* ================================================================== *)

Lemma append_nonempty (p s : string) : s ≠ "" → p +:+ s ≠ "".
Proof. destruct p; [done|discriminate]. Qed.

Lemma list_ascii_of_string_app (a b : string) :
  String.list_ascii_of_string (a +:+ b)
  = String.list_ascii_of_string a ++ String.list_ascii_of_string b.
Proof. induction a as [|c a IH]; simpl; [done|by rewrite IH]. Qed.

Lemma list_ascii_of_string_inj (a b : string) :
  String.list_ascii_of_string a = String.list_ascii_of_string b → a = b.
Proof.
  intros H. rewrite <- (String.string_of_list_ascii_of_string a),
    <- (String.string_of_list_ascii_of_string b). by rewrite H.
Qed.

(** No ID suffix is the tail of another one, so a prefixed ID determines
    both its prefix and its suffix. *)
Lemma prefixed_id_inj (A B s t : string) :
  s ∈ id_suffixes → t ∈ id_suffixes → A +:+ s = B +:+ t → A = B ∧ s = t.
Proof.
  intros Hs Ht Heq.
  apply (f_equal (λ x, reverse (String.list_ascii_of_string x))) in Heq.
  rewrite !list_ascii_of_string_app, !reverse_app in Heq.
  assert (reverse (String.list_ascii_of_string A) = reverse (String.list_ascii_of_string B)
          → A = B) as Hinj.
  { intros H. by apply list_ascii_of_string_inj, (inj reverse). }
  remember (reverse (String.list_ascii_of_string A)) as a eqn:Ha.
  remember (reverse (String.list_ascii_of_string B)) as b eqn:Hb.
  clear Ha Hb. unfold id_suffixes in Hs, Ht.
  repeat (apply elem_of_cons in Hs as [->|Hs]);
    try (by apply elem_of_nil in Hs);
    repeat (apply elem_of_cons in Ht as [->|Ht]);
    try (by apply elem_of_nil in Ht);
    vm_compute in Heq; simplify_eq; auto.
Qed.

Lemma prefixed_id_nonempty (p s : string) : s ∈ id_suffixes → p +:+ s ≠ "".
Proof.
  intros Hs. apply append_nonempty. intros ->. vm_compute in Hs.
  repeat (apply elem_of_cons in Hs as [?|Hs]; [done|]). by apply elem_of_nil in Hs.
Qed.

(* ================================================================== *)
(** * Property writes *)
(* ================================================================== *)

Lemma style_set_style_set prop v v' st :
  Dom.style_set prop v (Dom.style_set prop v' st) = Dom.style_set prop v st.
Proof.
  induction st as [|[k w] st IH]; simpl.
  - by rewrite decide_True.
  - destruct (decide (k = prop)) as [->|Hk]; simpl.
    + by rewrite decide_True.
    + by rewrite decide_False, IH.
Qed.

Lemma style_get_style_set prop v st : Dom.style_get prop (Dom.style_set prop v st) = v.
Proof.
  induction st as [|[k w] st IH]; simpl.
  - by rewrite decide_True.
  - destruct (decide (k = prop)) as [->|Hk]; simpl.
    + by rewrite decide_True.
    + by rewrite decide_False.
Qed.

Lemma display_set_display v e : display (Dom.set_style "display" v e) = v.
Proof. apply style_get_style_set. Qed.

Lemma alter_in_ext f g q n : (∀ m, f m = g m) → alter_in f q n = alter_in g q n.
Proof.
  intros Hfg. revert n. induction q as [|i q IH]; intros n; simpl; [apply Hfg|].
  destruct n as [e ch|s]; simpl; [|done]. f_equal. by apply list_alter_ext.
Qed.

Lemma alter_in_alter_in f g q n :
  alter_in f q (alter_in g q n) = alter_in (f ∘ g) q n.
Proof.
  revert n. induction q as [|i q IH]; intros n; simpl; [done|].
  destruct n as [e ch|s]; simpl; [|done]. f_equal.
  rewrite list_alter_alter_eq. apply list_alter_ext; [|done].
  intros c _. apply IH.
Qed.

Lemma alter_in_commute f g p q n :
  p ≠ q ∨ (∀ e, f (g e) = g (f e)) →
  alter_in (on_element f) p (alter_in (on_element g) q n)
  = alter_in (on_element g) q (alter_in (on_element f) p n).
Proof.
  revert q n. induction p as [|i p IH]; intros [|j q] n Hc.
  - destruct Hc as [?|Hc]; [done|]. destruct n; simpl; [by rewrite Hc|done].
  - by destruct n.
  - by destruct n.
  - simpl. destruct n as [e ch|s]; simpl; [|done]. f_equal.
    destruct (decide (i = j)) as [->|Hij].
    + rewrite !list_alter_alter_eq. apply list_alter_ext; [|done].
      intros c _. simpl. apply IH. destruct Hc as [Hc|Hc]; [left; congruence|by right].
    + by apply list_alter_alter_ne.
Qed.

Lemma alter_at_alter_at f g p ns :
  alter_at f p (alter_at g p ns) = alter_at (f ∘ g) p ns.
Proof.
  destruct p as [|i q]; simpl; [done|].
  rewrite list_alter_alter_eq. apply list_alter_ext; [|done].
  intros n _. apply alter_in_alter_in.
Qed.

Lemma alter_at_ext f g p ns : (∀ m, f m = g m) → alter_at f p ns = alter_at g p ns.
Proof.
  intros Hfg. destruct p as [|i q]; simpl; [done|].
  apply list_alter_ext; [|done]. intros n _. by apply alter_in_ext.
Qed.

Lemma alter_at_commute f g p q ns :
  p ≠ q ∨ (∀ e, f (g e) = g (f e)) →
  alter_at (on_element f) p (alter_at (on_element g) q ns)
  = alter_at (on_element g) q (alter_at (on_element f) p ns).
Proof.
  destruct p as [|i p], q as [|j q]; intros Hc; simpl; try done.
  destruct (decide (i = j)) as [->|Hij].
  - rewrite !list_alter_alter_eq. apply list_alter_ext; [|done].
    intros c _. simpl. apply alter_in_commute.
    destruct Hc as [Hc|Hc]; [left; congruence|by right].
  - by apply list_alter_alter_ne.
Qed.

Lemma effect_id w e : id (effect w e) = id e.
Proof. by destruct w. Qed.

Lemma apply_write_overwrite w w' doc :
  slot w = slot w' → apply_write w (apply_write w' doc) = apply_write w doc.
Proof.
  unfold apply_write. destruct w as [p v|p b], w' as [p' v'|p' b']; intros ?; simplify_eq/=.
  - rewrite alter_at_alter_at. apply alter_at_ext. intros [e ch|s]; [|done].
    simpl. unfold Dom.set_style. simpl. by rewrite style_set_style_set.
  - rewrite alter_at_alter_at. apply alter_at_ext. by intros [e ch|s].
Qed.

Lemma apply_write_commute w w' doc :
  slot w ≠ slot w' →
  apply_write w (apply_write w' doc) = apply_write w' (apply_write w doc).
Proof.
  unfold apply_write. intros Hne. apply alter_at_commute.
  destruct w as [p v|p b], w' as [p' v'|p' b']; simpl in *;
    first [by right | left; congruence].
Qed.

(** A write to a slot that is written again later leaves no trace. *)
Lemma apply_writes_dead_write w ws doc :
  slot w ∈ slot <$> ws → apply_writes ws (apply_write w doc) = apply_writes ws doc.
Proof.
  revert doc. induction ws as [|w1 ws IH]; intros doc Hin; [by apply elem_of_nil in Hin|].
  simpl. destruct (decide (slot w1 = slot w)) as [Heq|Hne].
  - by rewrite apply_write_overwrite.
  - rewrite apply_write_commute by done. apply IH.
    rewrite fmap_cons in Hin. apply elem_of_cons in Hin as [?|?]; [congruence|done].
Qed.

Lemma apply_writes_absorb ws ws' doc :
  slot <$> ws' ⊆ slot <$> ws →
  apply_writes ws (apply_writes ws' doc) = apply_writes ws doc.
Proof.
  revert doc. induction ws' as [|w ws' IH]; intros doc Hsub; [done|].
  simpl. rewrite IH.
  - apply apply_writes_dead_write, Hsub. rewrite fmap_cons. left.
  - intros s Hs. apply Hsub. rewrite fmap_cons. by right.
Qed.

Lemma apply_writes_idempotent ws doc :
  apply_writes ws (apply_writes ws doc) = apply_writes ws doc.
Proof. by apply apply_writes_absorb. Qed.

Lemma getElementById_apply_writes x ws doc :
  Dom.getElementById x (apply_writes ws doc) = Dom.getElementById x doc.
Proof.
  revert doc. induction ws as [|w ws IH]; intros doc; [done|].
  simpl. rewrite IH. apply getElementById_alter_element, effect_id.
Qed.

Lemma element_at_apply_writes q ws doc :
  element_at q (apply_writes ws doc) = effects_on q ws <$> element_at q doc.
Proof.
  revert doc. induction ws as [|w ws IH]; intros doc.
  - simpl. by destruct (element_at q doc).
  - simpl. rewrite IH. unfold apply_write.
    destruct (decide (target_of w = q)) as [<-|Hne].
    + rewrite element_at_alter_at_eq. destruct (element_at _ doc); simpl; [|done].
      unfold effects_on. simpl. by rewrite decide_True.
    + rewrite element_at_alter_at_ne by done. destruct (element_at q doc); simpl; [|done].
      unfold effects_on. simpl. by rewrite decide_False.
Qed.

Lemma effects_on_untouched q ws e :
  Forall (λ w, target_of w ≠ q) ws → effects_on q ws e = e.
Proof.
  unfold effects_on. revert e. induction ws as [|w ws IH]; intros e Hf; [done|].
  apply Forall_cons in Hf as [Hw Hf]. simpl. rewrite decide_False by done. by apply IH.
Qed.

(* ================================================================== *)
(** * What one call of the toggle does *)
(* ================================================================== *)

Lemma toggle_run serverType formPrefix σ :
  toggleServerTypeSpecificFields serverType formPrefix σ
  = Normal ()
      (Page (apply_writes
               (toggle_writes serverType
                  (Dom.getElementById (formPrefix +:+ "stdio-fields-container") (document σ))
                  (Dom.getElementById (formPrefix +:+ "http-fields-container") (document σ))
                  (Dom.getElementById (formPrefix +:+ "command") (document σ))
                  (Dom.getElementById (formPrefix +:+ "url") (document σ)))
               (document σ))
            (console σ ++
             toggle_console serverType formPrefix
               (Dom.getElementById (formPrefix +:+ "stdio-fields-container") (document σ))
               (Dom.getElementById (formPrefix +:+ "http-fields-container") (document σ)))
            (listeners σ)).
Proof.
  destruct σ as [doc con lis].
  unfold toggle_writes, toggle_console, is_stdio, is_http.
  cbv [toggleServerTypeSpecificFields getElementById console_emit when assign_style_display
       assign_required deref update_document throw mbind JS_bind mret JS_ret
       document console listeners truthy negb andb orb].
  destruct (Dom.getElementById (formPrefix +:+ "stdio-fields-container") doc) as [s|];
    destruct (Dom.getElementById (formPrefix +:+ "http-fields-container") doc) as [h|];
    destruct (Dom.getElementById (formPrefix +:+ "command") doc) as [c|];
    destruct (Dom.getElementById (formPrefix +:+ "url") doc) as [u|];
    destruct (bool_decide (serverType = "stdio"));
    destruct (bool_decide (serverType = "sse"));
    destruct (bool_decide (serverType = "streamable_http"));
    cbn [truthy andb orb writes_to app apply_writes foldl apply_write effect target_of];
    rewrite <- ?app_assoc; reflexivity.
Qed.

Lemma lookup_element_Some x doc e :
  lookup_element x doc = Some e ↔
  ∃ p, Dom.getElementById x doc = Some p ∧ element_at p doc = Some e.
Proof.
  unfold lookup_element. destruct (Dom.getElementById x doc) as [p|]; simpl.
  - split; [by exists p|by intros (? & ? & ?); simplify_eq].
  - split; [done|by intros (? & ? & ?)].
Qed.

(** References found under different prefixes or different suffixes are
    different elements. *)
Lemma distinct_refs P Q s t doc p q :
  s ∈ id_suffixes → t ∈ id_suffixes → P ≠ Q ∨ s ≠ t →
  Dom.getElementById (P +:+ s) doc = Some p →
  Dom.getElementById (Q +:+ t) doc = Some q →
  p ≠ q.
Proof.
  intros Hs Ht Hne Hp Hq ->.
  destruct (getElementById_sound _ _ _ Hp) as (e & He & Hid).
  destruct (getElementById_sound _ _ _ Hq) as (e' & He' & Hid').
  assert (P +:+ s = Q +:+ t) as Heq by congruence.
  destruct (prefixed_id_inj _ _ _ _ Hs Ht Heq). by destruct Hne.
Qed.

Lemma lookup_element_apply_writes x ws doc :
  lookup_element x (apply_writes ws doc)
  = p ← Dom.getElementById x doc; effects_on p ws <$> element_at p doc.
Proof.
  unfold lookup_element. rewrite getElementById_apply_writes.
  destruct (Dom.getElementById x doc) as [p|]; simpl; [|done].
  apply element_at_apply_writes.
Qed.

Lemma effects_on_nil q e : effects_on q [] e = e.
Proof. done. Qed.

Lemma effects_on_cons_eq q w ws e :
  target_of w = q → effects_on q (w :: ws) e = effects_on q ws (effect w e).
Proof. intros H. unfold effects_on. simpl. by rewrite decide_True. Qed.

Lemma effects_on_cons_ne q w ws e :
  target_of w ≠ q → effects_on q (w :: ws) e = effects_on q ws e.
Proof. intros H. unfold effects_on. simpl. by rewrite decide_False. Qed.

Lemma display_set_required b e : display (Dom.set_required b e) = display e.
Proof. done. Qed.

Ltac suffix_solver :=
  solve [ unfold id_suffixes;
          repeat first [ apply list_elem_of_here | apply list_elem_of_further ] ].

Lemma required_set_display v e : required (Dom.set_style "display" v e) = required e.
Proof. done. Qed.

Lemma required_set_required b e : required (Dom.set_required b e) = b.
Proof. done. Qed.

Ltac toggle_cases serverType :=
  unfold toggle_writes, is_stdio, is_http;
  destruct (bool_decide_reflect (serverType = "stdio"));
  destruct (bool_decide_reflect (serverType = "sse"));
  destruct (bool_decide_reflect (serverType = "streamable_http"));
  try congruence;
  cbn [writes_to app truthy andb orb].

Ltac run_effects :=
  repeat first [ rewrite effects_on_cons_eq by done
               | rewrite effects_on_cons_ne by (simpl; congruence) ];
  rewrite effects_on_nil; cbn [effect];
  rewrite ?display_set_required, ?display_set_display,
    ?required_set_display, ?required_set_required.

Lemma toggle_writes_effects serverType (s h c u : option path) (e : element) :
  apart s h → apart c u → apart s c → apart s u → apart h c → apart h u →
  let ws := toggle_writes serverType s h c u in
  (∀ p, s = Some p →
        display (effects_on p ws e) = if is_stdio serverType then "block" else "none") ∧
  (∀ p, h = Some p →
        display (effects_on p ws e) = if is_http serverType then "block" else "none") ∧
  (∀ p, c = Some p → required (effects_on p ws e) = is_stdio serverType && truthy s) ∧
  (∀ p, u = Some p → required (effects_on p ws e) = is_http serverType && truthy h).
Proof.
  intros Hsh Hcu Hsc Hsu Hhc Hhu ws. subst ws.
  repeat split; intros p ->.
  - destruct h as [h|], c as [c|], u as [u|];
    try (assert (p ≠ h) by (by apply Hsh));
    try (assert (p ≠ c) by (by apply Hsc));
    try (assert (p ≠ u) by (by apply Hsu));
    toggle_cases serverType; run_effects; reflexivity.
  - destruct s as [s|], c as [c|], u as [u|];
    try (assert (s ≠ p) by (by apply Hsh));
    try (assert (p ≠ c) by (by apply Hhc));
    try (assert (p ≠ u) by (by apply Hhu));
    toggle_cases serverType; run_effects; reflexivity.
  - destruct s as [s|], h as [h|], u as [u|];
    try (assert (s ≠ p) by (by apply Hsc));
    try (assert (h ≠ p) by (by apply Hhc));
    try (assert (p ≠ u) by (by apply Hcu));
    toggle_cases serverType; run_effects; reflexivity.
  - destruct s as [s|], h as [h|], c as [c|];
    try (assert (s ≠ p) by (by apply Hsu));
    try (assert (h ≠ p) by (by apply Hhu));
    try (assert (c ≠ p) by (by apply Hcu));
    toggle_cases serverType; run_effects; reflexivity.
Qed.

Lemma toggle_refs_apart P doc s t :
  s ∈ id_suffixes → t ∈ id_suffixes → s ≠ t →
  apart (Dom.getElementById (P +:+ s) doc) (Dom.getElementById (P +:+ t) doc).
Proof. intros Hs Ht Hne p q Hp Hq. by apply (distinct_refs P P s t doc); auto. Qed.

(** The state of the four elements after one call, for every variant and
    every combination of present and absent elements. *)
Lemma toggle_effects serverType formPrefix σ :
  let doc := document σ in
  let doc' := document (state_of (toggleServerTypeSpecificFields serverType formPrefix σ)) in
  let s := Dom.getElementById (formPrefix +:+ "stdio-fields-container") doc in
  let h := Dom.getElementById (formPrefix +:+ "http-fields-container") doc in
  (∀ e', lookup_element (formPrefix +:+ "stdio-fields-container") doc' = Some e' →
         display e' = if is_stdio serverType then "block" else "none") ∧
  (∀ e', lookup_element (formPrefix +:+ "http-fields-container") doc' = Some e' →
         display e' = if is_http serverType then "block" else "none") ∧
  (∀ e', lookup_element (formPrefix +:+ "command") doc' = Some e' →
         required e' = is_stdio serverType && truthy s) ∧
  (∀ e', lookup_element (formPrefix +:+ "url") doc' = Some e' →
         required e' = is_http serverType && truthy h).
Proof.
  intros doc doc' s h. subst doc' s h. rewrite toggle_run. cbn [state_of document].
  fold doc. generalize doc. clear σ doc. intros doc.
  repeat split; intros e'; rewrite lookup_element_apply_writes;
    intros He'; apply bind_Some in He' as (p & Hp & He');
    apply fmap_Some in He' as (e & _ & ->);
    eapply toggle_writes_effects; try exact Hp;
    apply toggle_refs_apart; first [suffix_solver|done].
Qed.

Lemma lookup_element_toggle_present serverType formPrefix σ x e :
  lookup_element x (document σ) = Some e →
  is_Some (lookup_element x
             (document (state_of (toggleServerTypeSpecificFields serverType formPrefix σ)))).
Proof.
  rewrite toggle_run. cbn [state_of document]. rewrite lookup_element_apply_writes.
  intros (p & Hp & He)%lookup_element_Some. rewrite Hp. simpl. rewrite He. by eexists.
Qed.

Lemma toggle_returns serverType formPrefix σ :
  ∃ σ', toggleServerTypeSpecificFields serverType formPrefix σ = Normal () σ'.
Proof. rewrite toggle_run. by eexists. Qed.

Lemma visible_display (e : element) (b : bool) :
  display e = (if b then "block" else "none") → (visible e ↔ b = true).
Proof. unfold visible. intros ->. by destruct b. Qed.

Lemma is_stdio_spec serverType : is_stdio serverType = true ↔ serverType = "stdio".
Proof. apply bool_decide_eq_true. Qed.

Lemma is_http_spec serverType :
  is_http serverType = true ↔ serverType = "sse" ∨ serverType = "streamable_http".
Proof. unfold is_http. rewrite orb_true_iff, !bool_decide_eq_true. done. Qed.

Lemma is_stdio_is_http serverType : is_stdio serverType = true → is_http serverType = false.
Proof. intros ->%is_stdio_spec. reflexivity. Qed.

Lemma lookup_element_toggle_inv serverType formPrefix σ x e' :
  lookup_element x
    (document (state_of (toggleServerTypeSpecificFields serverType formPrefix σ))) = Some e' →
  is_Some (Dom.getElementById x (document σ)).
Proof.
  rewrite toggle_run. cbn [state_of document]. rewrite lookup_element_apply_writes.
  intros (p & Hp & _)%bind_Some. by eexists.
Qed.

Lemma toggle_establishes_consistent serverType formPrefix σ :
  consistent (document (state_of (toggleServerTypeSpecificFields serverType formPrefix σ)))
             formPrefix.
Proof.
  intros s h c u Hs Hh Hc Hu.
  pose proof (toggle_effects serverType formPrefix σ) as E. cbv zeta in E.
  destruct E as (Es & Eh & Ec & Eu).
  specialize (Es _ Hs). specialize (Eh _ Hh). specialize (Ec _ Hc). specialize (Eu _ Hu).
  destruct (lookup_element_toggle_inv _ _ _ _ _ Hs) as [ps Hps].
  destruct (lookup_element_toggle_inv _ _ _ _ _ Hh) as [ph Hph].
  rewrite Hps in Ec. rewrite Hph in Eu. cbn [truthy] in Ec, Eu.
  rewrite andb_true_r in Ec, Eu.
  rewrite (visible_display _ _ Es), (visible_display _ _ Eh), Ec, Eu.
  split; [|done]. intros [H1 H2]. apply is_stdio_is_http in H1. congruence.
Qed.

Lemma toggle_writes_miss serverType formPrefix doc q :
  (∀ t p, t ∈ id_suffixes →
          Dom.getElementById (formPrefix +:+ t) doc = Some p → p ≠ q) →
  Forall (λ w, target_of w ≠ q)
    (toggle_writes serverType
       (Dom.getElementById (formPrefix +:+ "stdio-fields-container") doc)
       (Dom.getElementById (formPrefix +:+ "http-fields-container") doc)
       (Dom.getElementById (formPrefix +:+ "command") doc)
       (Dom.getElementById (formPrefix +:+ "url") doc)).
Proof.
  intros Hne. unfold toggle_writes.
  destruct (Dom.getElementById (formPrefix +:+ "stdio-fields-container") doc) as [s|] eqn:Hs;
    destruct (Dom.getElementById (formPrefix +:+ "http-fields-container") doc) as [h|] eqn:Hh;
    destruct (Dom.getElementById (formPrefix +:+ "command") doc) as [c|] eqn:Hc;
    destruct (Dom.getElementById (formPrefix +:+ "url") doc) as [u|] eqn:Hu;
    destruct (is_stdio serverType), (is_http serverType);
    cbn [writes_to app truthy andb];
    repeat (apply Forall_cons; split;
            [cbn [target_of]; eapply Hne; [|eassumption]; suffix_solver|]);
    apply Forall_nil_2.
Qed.

Lemma other_prefix_refs prefixA prefixB sfx doc q e :
  prefixA ≠ prefixB → sfx ∈ id_suffixes →
  element_at q doc = Some e → id e = prefixB +:+ sfx →
  ∀ t p, t ∈ id_suffixes → Dom.getElementById (prefixA +:+ t) doc = Some p → p ≠ q.
Proof.
  intros HAB Hsfx He Hid t p Ht Hp ->.
  destruct (getElementById_sound _ _ _ Hp) as (e' & He' & Hid').
  assert (prefixA +:+ t = prefixB +:+ sfx) as Heq by congruence.
  by destruct (prefixed_id_inj _ _ _ _ Ht Hsfx Heq).
Qed.

(** The toggle for one prefix does not touch an element that carries an ID
    of another prefix. *)
Lemma toggle_other_prefix serverType prefixA prefixB sfx σ q e :
  prefixA ≠ prefixB → sfx ∈ id_suffixes →
  element_at q (document σ) = Some e → id e = prefixB +:+ sfx →
  element_at q (document (state_of (toggleServerTypeSpecificFields serverType prefixA σ)))
  = Some e.
Proof.
  intros HAB Hsfx He Hid. rewrite toggle_run. cbn [state_of document].
  rewrite element_at_apply_writes, He. simpl. f_equal.
  by eapply effects_on_untouched, toggle_writes_miss, other_prefix_refs.
Qed.

Lemma lookup_element_toggle_other serverType prefixA prefixB sfx σ :
  prefixA ≠ prefixB → sfx ∈ id_suffixes →
  lookup_element (prefixB +:+ sfx)
    (document (state_of (toggleServerTypeSpecificFields serverType prefixA σ)))
  = lookup_element (prefixB +:+ sfx) (document σ).
Proof.
  intros HAB Hsfx. rewrite toggle_run. cbn [state_of document].
  rewrite lookup_element_apply_writes. unfold lookup_element.
  destruct (Dom.getElementById (prefixB +:+ sfx) (document σ)) as [p|] eqn:Hp; [|done].
  cbn [mbind option_bind].
  destruct (getElementById_sound _ _ _ Hp) as (e & He & Hid). rewrite He. simpl. f_equal.
  by eapply effects_on_untouched, toggle_writes_miss, other_prefix_refs.
Qed.

Lemma row_has_no_ids k :
  Forall (λ pe : path * element, id pe.2 = "") (tree_order (new_field_row (row_html k))).
Proof. destruct k; vm_compute; repeat constructor. Qed.

Lemma row_matches_no_id k x :
  x ≠ "" → filter (λ pe : path * element, id pe.2 = x) (tree_order (new_field_row (row_html k))) = [].
Proof.
  intros Hx. pose proof (row_has_no_ids k) as H.
  induction H as [|pe l Hpe _ IH]; [done|].
  rewrite filter_cons, decide_False by congruence. exact IH.
Qed.

(* ================================================================== *)
(** * What the insertions and the removal do *)
(* ================================================================== *)

(** What the insertions do to the page. *)
Lemma add_run k formPrefix σ :
  addRepeatableField k formPrefix σ =
  match Dom.getElementById (formPrefix +:+ container_suffix k) (document σ) with
  | Some c =>
      Normal () (Page (alter_at (on_children (λ ch, ch ++ [new_field_row (row_html k)])) c
                         (document σ))
                      (console σ) (listeners σ))
  | None =>
      Normal () (Page (document σ)
                      (console σ ++
                       [(WARN, match k with
                               | Argument => "[addArgumentField] Container not found: "
                               | EnvPair => "[addEnvVarField] Container not found: "
                               end +:+ formPrefix +:+ container_suffix k)])
                      (listeners σ))
  end.
Proof.
  destruct σ as [doc con lis], k; cbn [addRepeatableField container_suffix row_html];
    cbv [addArgumentField addEnvVarField getElementById mbind JS_bind document];
    destruct (Dom.getElementById _ doc); reflexivity.
Qed.

(** What the removal does to the page. *)
Lemma remove_run buttonElement σ :
  removeDynamicField buttonElement σ =
  match element_at buttonElement (document σ) with
  | None => Throw "TypeError: closest is not a function" σ
  | Some _ =>
      match Dom.closest "dynamic-field-row" buttonElement (document σ) with
      | Some fieldRow =>
          Normal () (Page (remove_at fieldRow (document σ)) (console σ) (listeners σ))
      | None =>
          Normal () (Page (document σ)
                          (console σ ++
                           [(WARN, "[removeDynamicField] Could not find parent '.dynamic-field-row' to remove.")])
                          (listeners σ))
      end
  end.
Proof.
  destruct σ as [doc con lis].
  cbv [removeDynamicField closest mbind JS_bind document].
  destruct (element_at buttonElement doc); [|reflexivity].
  destruct (Dom.closest _ _ doc); reflexivity.
Qed.

Lemma consistent_ext doc doc' formPrefix :
  (∀ sfx e, sfx ∈ id_suffixes →
            lookup_element (formPrefix +:+ sfx) doc' = Some e →
            lookup_element (formPrefix +:+ sfx) doc = Some e) →
  consistent doc formPrefix → consistent doc' formPrefix.
Proof.
  intros Hl Hc s h c u Hs Hh Hcm Hu.
  apply Hc; apply Hl; first [suffix_solver|done].
Qed.

Lemma perform_preserves_consistent op σ formPrefix :
  consistent (document σ) formPrefix →
  (∀ r, op = Remove r → unique_ids (document σ)) →
  consistent (document (state_of (perform op σ))) formPrefix.
Proof.
  intros Hc Hu. destruct op as [serverType prefixA|k prefixA|r]; cbn [perform].
  - destruct (decide (prefixA = formPrefix)) as [->|Hne].
    + apply toggle_establishes_consistent.
    + eapply consistent_ext; [|exact Hc]. intros sfx e0 Hsfx.
      by rewrite lookup_element_toggle_other.
  - rewrite add_run. destruct (Dom.getElementById _ (document σ)) as [c|]; [|exact Hc].
    cbn [state_of document]. eapply consistent_ext; [|exact Hc]. intros sfx e0 Hsfx.
    rewrite lookup_element_append; [done|].
    apply row_matches_no_id. by apply prefixed_id_nonempty.
  - rewrite remove_run. destruct (element_at r (document σ)) as [e0|]; [|exact Hc].
    destruct (Dom.closest _ _ _) as [fieldRow|]; [|exact Hc].
    cbn [state_of document]. eapply consistent_ext; [|exact Hc]. intros sfx e1 Hsfx.
    apply lookup_element_remove_at. by apply (Hu r).
Qed.

(* ================================================================== *)
(** * Appending and removing rows *)
(* ================================================================== *)

Lemma list_alter_fixed {A} (f : A → A) (l : list A) i x :
  l !! i = Some x → f x = x → alter f i l = l.
Proof.
  revert i. induction l as [|y l IH]; intros [|i] Hi Hf; simplify_eq/=; f_equal; eauto.
Qed.

Lemma remove_at_cons i q ns :
  q ≠ [] → remove_at (i :: q) ns = alter (on_children (remove_at q)) i ns.
Proof. by destruct q. Qed.

Lemma element_at_is_Elem p doc e :
  element_at p doc = Some e → ∃ ch, node_at p doc = Some (Elem e ch).
Proof.
  unfold element_at. destruct (node_at p doc) as [[e' ch|s]|]; intros ?; simplify_eq/=.
  by exists ch.
Qed.

Lemma children_at_Elem p doc e ch :
  node_at p doc = Some (Elem e ch) → children_at p doc = ch.
Proof. destruct p; [done|]. unfold children_at. by intros ->. Qed.

(** The children of an element after [g] rewrote its child list. *)
Lemma children_at_alter_children g p doc e :
  element_at p doc = Some e →
  children_at p (alter_at (on_children g) p doc) = g (children_at p doc).
Proof.
  intros (ch & Hn)%element_at_is_Elem. rewrite (children_at_Elem _ _ _ _ Hn).
  apply (children_at_Elem _ _ e). by rewrite node_at_alter_at, Hn.
Qed.

Lemma element_at_alter_children g p doc :
  element_at p (alter_at (on_children g) p doc) = element_at p doc.
Proof.
  unfold element_at. rewrite node_at_alter_at. by destruct (node_at p doc) as [[]|].
Qed.

Lemma remove_appended_in r q n e ch :
  descend q n = Some (Elem e ch) →
  on_children (remove_at (q ++ [length ch]))
    (alter_in (on_children (λ l, l ++ [r])) q n) = n.
Proof.
  revert n. induction q as [|j q IH]; intros n Hq.
  - simpl in Hq. simplify_eq. cbn [alter_in on_children app remove_at].
    by rewrite (delete_middle ch [] r), app_nil_r.
  - simpl in Hq. destruct n as [e0 ch0|s]; [|done]. simpl in Hq.
    destruct (ch0 !! j) as [c|] eqn:Hj; [|done]. simpl in Hq.
    cbn [alter_in on_children]. f_equal.
    change ((j :: q) ++ [length ch]) with (j :: (q ++ [length ch])).
    rewrite remove_at_cons by (by destruct q).
    rewrite list_alter_alter_eq. apply (list_alter_fixed _ _ _ c); [done|].
    by apply IH.
Qed.

(** Removing the child that was just appended restores the document. *)
Lemma remove_appended r p doc e ch :
  node_at p doc = Some (Elem e ch) →
  remove_at (p ++ [length ch]) (alter_at (on_children (λ l, l ++ [r])) p doc) = doc.
Proof.
  destruct p as [|i q]; [done|]. cbn [node_at alter_at]. intros Hn.
  destruct (doc !! i) as [n|] eqn:Hi; [|done]. simpl in Hn.
  change ((i :: q) ++ [length ch]) with (i :: (q ++ [length ch])).
  rewrite remove_at_cons by (by destruct q).
  rewrite list_alter_alter_eq. apply (list_alter_fixed _ _ _ n); [done|].
  by apply (remove_appended_in r q n e ch).
Qed.

Lemma descend_remove_last q i n :
  descend q (on_children (remove_at (q ++ [i])) n) = on_children (delete i) <$> descend q n.
Proof.
  revert n. induction q as [|k q IH]; intros n; [done|].
  change ((k :: q) ++ [i]) with (k :: (q ++ [i])).
  destruct n as [e ch|s]; [|done]. cbn [on_children descend children].
  rewrite remove_at_cons by (by destruct q). rewrite list_lookup_alter_eq.
  destruct (ch !! k) as [c|]; [|done]. simpl. apply IH.
Qed.

(** Removal takes exactly one child out of the parent's child list. *)
Lemma children_at_remove_at q i doc :
  children_at q (remove_at (q ++ [i]) doc) = delete i (children_at q doc).
Proof.
  destruct q as [|k q]; [done|].
  change ((k :: q) ++ [i]) with (k :: (q ++ [i])).
  rewrite remove_at_cons by (by destruct q).
  unfold children_at, node_at. rewrite list_lookup_alter_eq.
  destruct (doc !! k) as [n|]; [|done]. cbn [fmap option_fmap option_map mbind option_bind].
  rewrite descend_remove_last. by destruct (descend q n) as [[]|].
Qed.

Lemma inclusive_ancestors_app a q :
  inclusive_ancestors (a ++ q)
  = map (app a) (inclusive_ancestors q) ++ inclusive_ancestors a.
Proof.
  induction a as [|i a IH]; simpl.
  - by rewrite app_nil_r, map_id.
  - rewrite IH, map_app, map_map, <- app_assoc. done.
Qed.

Lemma inclusive_ancestors_head a :
  a ≠ [] → ∃ rest, inclusive_ancestors a = a :: rest.
Proof.
  induction a as [|i a IH]; [done|]. intros _. destruct a as [|j a].
  - by exists [].
  - destruct IH as [rest Hr]; [done|]. simpl in *. rewrite Hr. by eexists.
Qed.

Lemma inclusive_ancestors_nonempty q x : x ∈ inclusive_ancestors q → x ≠ [].
Proof.
  destruct q as [|i q]; simpl; [by intros ?%elem_of_nil|].
  intros [Hx|Hx]%elem_of_app.
  - apply list_elem_of_fmap in Hx as (y & -> & _). done.
  - apply list_elem_of_singleton in Hx as ->. done.
Qed.

(** An element that carries the class is its own closest match. *)
Lemma closest_self cls p doc e :
  element_at p doc = Some e → Dom.has_class cls e = true →
  Dom.closest cls p doc = Some p.
Proof.
  intros He Hcls. unfold Dom.closest.
  destruct (inclusive_ancestors_head p) as [rest ->].
  { intros ->. done. }
  rewrite filter_cons, decide_True; [done|].
  unfold Dom.matches_class. by rewrite He.
Qed.

Lemma closest_None cls p doc :
  Dom.closest cls p doc = None ↔
  Forall (λ q, Dom.matches_class cls doc q = false) (inclusive_ancestors p).
Proof.
  unfold Dom.closest. generalize (inclusive_ancestors p). intros l.
  induction l as [|q l IH]; [by split|].
  rewrite filter_cons, Forall_cons. destruct (decide _) as [Hq|Hq]; simpl.
  - split; [done|]. intros [? _]. congruence.
  - rewrite IH. apply not_true_is_false in Hq. tauto.
Qed.

Lemma filter_none {A} (P : A → Prop) `{!∀ x, Decision (P x)} (l : list A) :
  Forall (λ x, ¬ P x) l → filter P l = [].
Proof.
  induction 1 as [|x l Hx _ IH]; [done|]. by rewrite filter_cons, decide_False.
Qed.

(** From inside a subtree that carries the class at its root and nowhere
    below, the closest match is the root of the subtree. *)
Lemma closest_in_subtree cls a q doc m e :
  a ≠ [] →
  node_at a doc = Some m →
  as_element m = Some e → Dom.has_class cls e = true →
  (∀ x e', x ≠ [] → sub_element x m = Some e' → Dom.has_class cls e' = false) →
  Dom.closest cls (a ++ q) doc = Some a.
Proof.
  intros Ha Hm He Hcls Hinner. unfold Dom.closest.
  rewrite inclusive_ancestors_app, filter_app, filter_none.
  - destruct (inclusive_ancestors_head a Ha) as [rest ->].
    rewrite app_nil_l, filter_cons, decide_True; [done|].
    unfold Dom.matches_class, element_at. rewrite Hm. simpl. by rewrite He.
  - apply Forall_forall. intros y Hy.
    apply list_elem_of_fmap in Hy as (x & -> & Hx).
    apply inclusive_ancestors_nonempty in Hx.
    unfold Dom.matches_class. rewrite element_at_app, Hm by done. simpl.
    destruct (sub_element x m) as [e'|] eqn:He'; simpl; [|done].
    by rewrite (Hinner x e').
Qed.

Lemma row_marker k :
  as_element (new_field_row (row_html k))
  = Some (Element "div" "" ["row"; "dynamic-field-row"] [("margin-bottom", "5px")] [] "" false).
Proof. by destruct k. Qed.

Lemma row_inner_no_marker k x e :
  x ≠ [] → sub_element x (new_field_row (row_html k)) = Some e →
  Dom.has_class "dynamic-field-row" e = false.
Proof.
  intros Hx He. apply tree_order_complete in He.
  assert (Forall (λ pe : path * element,
                    pe.1 = [] ∨ Dom.has_class "dynamic-field-row" pe.2 = false)
                 (tree_order (new_field_row (row_html k)))) as Hall.
  { destruct k; apply (bool_decide_unpack _); vm_compute; exact I. }
  rewrite Forall_forall in Hall. by destruct (Hall _ He).
Qed.

Lemma prefix_refl (s : string) : String.prefix s s = true.
Proof. induction s as [|c s IH]; simpl; [done|]. by destruct (Ascii.ascii_dec c c). Qed.

Lemma slice_length (s : string) : JsString.slice (String.length s) s = "".
Proof. by induction s. Qed.

Lemma replace_whole (pat : string) : JsString.replace pat "" pat = "".
Proof.
  destruct pat as [|c p]; [done|].
  cbn [JsString.replace]. rewrite prefix_refl. apply (slice_length (String c p)).
Qed.

(** When the pattern occurs in [P +:+ pat] only at the very end, replacing
    its first occurrence strips it. *)
Lemma replace_only_at_end (pat P : string) :
  (∀ a b, P = a +:+ b → b ≠ "" → String.prefix pat (b +:+ pat) = false) →
  JsString.replace pat "" (P +:+ pat) = P.
Proof.
  induction P as [|c P IH]; intros Hfirst.
  - apply replace_whole.
  - assert (String.prefix pat (String c P +:+ pat) = false) as Hp
      by (by apply (Hfirst "" (String c P))).
    simpl in Hp. simpl. rewrite Hp. f_equal. apply IH.
    intros a b -> Hb. by apply (Hfirst (String c a) b).
Qed.

(* ================================================================== *)
(** * The claims *)
(* ================================================================== *)

(** C1. With both sections and both inputs present, after the toggle the
    stdio section is visible iff the variant is "stdio", the http section iff
    it is "sse" or "streamable_http", each input is required iff its section
    is visible, and for any other variant both sections are hidden and both
    inputs are not required. *)
Theorem C1_toggle_shows_the_section_of_the_variant
    (serverType formPrefix : string) (σ : page) (s h c u : element) :
  lookup_element (formPrefix +:+ "stdio-fields-container") (document σ) = Some s →
  lookup_element (formPrefix +:+ "http-fields-container") (document σ) = Some h →
  lookup_element (formPrefix +:+ "command") (document σ) = Some c →
  lookup_element (formPrefix +:+ "url") (document σ) = Some u →
  ∃ σ' s' h' c' u',
    toggleServerTypeSpecificFields serverType formPrefix σ = Normal () σ' ∧
    lookup_element (formPrefix +:+ "stdio-fields-container") (document σ') = Some s' ∧
    lookup_element (formPrefix +:+ "http-fields-container") (document σ') = Some h' ∧
    lookup_element (formPrefix +:+ "command") (document σ') = Some c' ∧
    lookup_element (formPrefix +:+ "url") (document σ') = Some u' ∧
    (visible s' ↔ serverType = "stdio") ∧
    (visible h' ↔ serverType = "sse" ∨ serverType = "streamable_http") ∧
    (required c' = true ↔ visible s') ∧
    (required u' = true ↔ visible h') ∧
    (serverType ≠ "stdio" → serverType ≠ "sse" → serverType ≠ "streamable_http" →
     hidden s' ∧ hidden h' ∧ required c' = false ∧ required u' = false).
Proof.
  intros Hs Hh Hc Hu.
  destruct (lookup_element_toggle_present serverType formPrefix σ _ _ Hs) as [s' Hs'].
  destruct (lookup_element_toggle_present serverType formPrefix σ _ _ Hh) as [h' Hh'].
  destruct (lookup_element_toggle_present serverType formPrefix σ _ _ Hc) as [c' Hc'].
  destruct (lookup_element_toggle_present serverType formPrefix σ _ _ Hu) as [u' Hu'].
  pose proof (toggle_effects serverType formPrefix σ) as E. cbv zeta in E.
  destruct E as (Es & Eh & Ec & Eu).
  specialize (Es _ Hs'). specialize (Eh _ Hh'). specialize (Ec _ Hc'). specialize (Eu _ Hu').
  apply lookup_element_Some in Hs as (ps & Hps & _), Hh as (ph & Hph & _).
  rewrite Hps in Ec. rewrite Hph in Eu.
  cbn [truthy] in Ec, Eu. rewrite andb_true_r in Ec, Eu.
  destruct (toggle_returns serverType formPrefix σ) as [σ' Hrun].
  rewrite Hrun in Hs', Hh', Hc', Hu'. cbn [state_of] in Hs', Hh', Hc', Hu'.
  exists σ', s', h', c', u'. repeat split; try done.
  - intros Hv. by apply is_stdio_spec, (visible_display _ _ Es).
  - intros Hv. by apply (visible_display _ _ Es), is_stdio_spec.
  - intros Hv. by apply is_http_spec, (visible_display _ _ Eh).
  - intros Hv. by apply (visible_display _ _ Eh), is_http_spec.
  - intros Hr. apply (visible_display _ _ Es). congruence.
  - intros Hv. rewrite Ec. by apply (visible_display _ _ Es).
  - intros Hr. apply (visible_display _ _ Eh). congruence.
  - intros Hv. rewrite Eu. by apply (visible_display _ _ Eh).
  - unfold hidden. rewrite Es. destruct (is_stdio serverType) eqn:E; [|done].
    by apply is_stdio_spec in E.
  - unfold hidden. rewrite Eh. destruct (is_http serverType) eqn:E; [|done].
    apply is_http_spec in E. by destruct E.
  - rewrite Ec. destruct (is_stdio serverType) eqn:E; [|done].
    by apply is_stdio_spec in E.
  - rewrite Eu. destruct (is_http serverType) eqn:E; [|done].
    apply is_http_spec in E. by destruct E.
Qed.

Lemma C1_witness :
  ∃ σ' s' h' c' u',
    toggleServerTypeSpecificFields "sse" "single-add-" single_add_page = Normal () σ' ∧
    lookup_element ("single-add-" +:+ "stdio-fields-container") (document σ') = Some s' ∧
    lookup_element ("single-add-" +:+ "http-fields-container") (document σ') = Some h' ∧
    lookup_element ("single-add-" +:+ "command") (document σ') = Some c' ∧
    lookup_element ("single-add-" +:+ "url") (document σ') = Some u' ∧
    (visible s' ↔ "sse" = "stdio") ∧
    (visible h' ↔ "sse" = "sse" ∨ "sse" = "streamable_http") ∧
    (required c' = true ↔ visible s') ∧
    (required u' = true ↔ visible h') ∧
    ("sse" ≠ "stdio" → "sse" ≠ "sse" → "sse" ≠ "streamable_http" →
     hidden s' ∧ hidden h' ∧ required c' = false ∧ required u' = false).
Proof.
  apply (C1_toggle_shows_the_section_of_the_variant "sse" "single-add-" single_add_page
           (plain "div" "single-add-stdio-fields-container")
           (plain "div" "single-add-http-fields-container")
           (plain "input" "single-add-command")
           (plain "input" "single-add-url")); reflexivity.
Defined.

(** C2, as stated, fails: with the stdio section container absent, the
    toggle called with "stdio" leaves the present command input not
    required. *)
Lemma C2_counterexample :
  lookup_element "command" (document command_only_page) = Some (plain "input" "command") ∧
  lookup_element "stdio-fields-container" (document command_only_page) = None ∧
  required <$> lookup_element "command"
     (document (state_of (toggleServerTypeSpecificFields "stdio" "" command_only_page)))
  = Some false.
Proof. repeat split; reflexivity. Qed.

(** C2, amended. For every prefix, when the toggle is called with "stdio"
    and the command input is present, the command input is required after the
    call exactly when the stdio section container is present too; the branch
    that marks it required is guarded by the container. *)
Theorem C2_command_required_iff_stdio_section_present
    (formPrefix : string) (σ : page) (c : element) :
  lookup_element (formPrefix +:+ "command") (document σ) = Some c →
  ∃ σ' c',
    toggleServerTypeSpecificFields "stdio" formPrefix σ = Normal () σ' ∧
    lookup_element (formPrefix +:+ "command") (document σ') = Some c' ∧
    (required c' = true ↔
     is_Some (Dom.getElementById (formPrefix +:+ "stdio-fields-container") (document σ))).
Proof.
  intros Hc.
  destruct (lookup_element_toggle_present "stdio" formPrefix σ _ _ Hc) as [c' Hc'].
  pose proof (toggle_effects "stdio" formPrefix σ) as E. cbv zeta in E.
  destruct E as (_ & _ & Ec & _). specialize (Ec _ Hc').
  destruct (toggle_returns "stdio" formPrefix σ) as [σ' Hrun].
  rewrite Hrun in Hc'. cbn [state_of] in Hc'.
  exists σ', c'. split; [done|]. split; [done|]. rewrite Ec.
  destruct (Dom.getElementById _ (document σ)) as [p|]; simpl.
  - split; [by eexists|done].
  - split; [done|by intros [??]].
Qed.

Lemma C2_witness :
  ∃ σ' c',
    toggleServerTypeSpecificFields "stdio" "single-add-" single_add_page = Normal () σ' ∧
    lookup_element ("single-add-" +:+ "command") (document σ') = Some c' ∧
    (required c' = true ↔
     is_Some (Dom.getElementById ("single-add-" +:+ "stdio-fields-container")
                (document single_add_page))).
Proof.
  apply (C2_command_required_iff_stdio_section_present "single-add-" single_add_page
           (plain "input" "single-add-command")).
  reflexivity.
Defined.

(** C3, as stated, fails: the text input of an inserted argument row
    submits under the name "arg_item[]", not "arg_item" (and the env-pair
    inputs under "env_key[]" and "env_value[]"). *)
Lemma C3_counterexample :
  let inserted_by (add : JS unit) (container : path) :=
    last (children_at container (document (state_of (add single_add_page)))) in
  field_names <$> inserted_by (addArgumentField "single-add-") [0; 0; 1; 1]
    = Some [Some "arg_item[]"] ∧
  field_names <$> inserted_by (addArgumentField "single-add-") [0; 0; 1; 1]
    ≠ Some [Some "arg_item"] ∧
  field_names <$> inserted_by (addEnvVarField "single-add-") [0; 0; 1; 2]
    = Some [Some "env_key[]"; Some "env_value[]"] ∧
  field_names <$> inserted_by (addEnvVarField "single-add-") [0; 0; 1; 2]
    ≠ Some [Some "env_key"; Some "env_value"].
Proof. repeat split; vm_compute; congruence. Qed.

(** C3, amended. Every row inserted by the argument-kind insertion is
    appended as the last child of its container and contains exactly one text
    input, named "arg_item[]"; every row inserted by the env-pair-kind
    insertion contains exactly two text inputs, named "env_key[]" and
    "env_value[]", in that order. *)
Theorem C3_inserted_rows_field_names (k : kind) (formPrefix : string) (σ : page) (c : path) :
  Dom.getElementById (formPrefix +:+ container_suffix k) (document σ) = Some c →
  ∃ σ' row,
    addRepeatableField k formPrefix σ = Normal () σ' ∧
    children_at c (document σ') = children_at c (document σ) ++ [row] ∧
    field_names row = match k with
                      | Argument => [Some "arg_item[]"]
                      | EnvPair => [Some "env_key[]"; Some "env_value[]"]
                      end.
Proof.
  intros Hc. rewrite add_run, Hc.
  eexists _, (new_field_row (row_html k)). split; [done|]. cbn [document].
  destruct (getElementById_sound _ _ _ Hc) as (e & He & _).
  split; [by rewrite (children_at_alter_children _ _ _ e He)|].
  by destruct k.
Qed.

Lemma C3_witness :
  ∃ σ' row,
    addRepeatableField EnvPair "single-add-" single_add_page = Normal () σ' ∧
    children_at [0; 0; 1; 2] (document σ')
    = children_at [0; 0; 1; 2] (document single_add_page) ++ [row] ∧
    field_names row = [Some "env_key[]"; Some "env_value[]"].
Proof.
  apply (C3_inserted_rows_field_names EnvPair "single-add-" single_add_page [0; 0; 1; 2]).
  reflexivity.
Defined.

(** C4 (the code departs from the claim). For the select ID
    "server_types-edit-server_type", which ends with "server_type" and
    contains it once more at the start, the handler derives the prefix
    "s-edit-server_type" instead of "server_types-edit-": [replace] removes
    the first occurrence.  The toggle then looks up IDs that do not exist,
    warns, and leaves the form untouched. *)
Theorem C4_prefix_when_server_type_occurs_earlier :
  JsString.endsWith "server_types-edit-server_type" "server_type" = true ∧
  formPrefix_of "server_types-edit-server_type" = "s-edit-server_type" ∧
  formPrefix_of "server_types-edit-server_type" ≠ "server_types-edit-" ∧
  let σ' := state_of (onDOMContentLoaded (mret ()) (λ _, mret ()) server_types_edit_page) in
  document σ' = document server_types_edit_page ∧
  listeners σ' = [([0; 0; 0], "s-edit-server_type")] ∧
  console σ' =
    [(LOG, "Materialize components initialized via M.AutoInit().");
     (LOG, "Found 1 server type select(s) for initial state setup.");
     (LOG, "Setting initial fields visibility for prefix: 's-edit-server_type' based on value: 'stdio'");
     (DEBUG, "[toggleServerTypeSpecificFields] Called for prefix 's-edit-server_type' with type 'stdio'");
     (WARN, "[toggleServerTypeSpecificFields] Element not found: s-edit-server_typestdio-fields-container");
     (WARN, "[toggleServerTypeSpecificFields] Element not found: s-edit-server_typehttp-fields-container");
     (DEBUG, "[toggleServerTypeSpecificFields] No specific type matched or element missing for s-edit-server_type, hiding both sections.")].
Proof. repeat split; vm_compute; congruence. Qed.

(** C5, as stated, fails for the removal: in a document in which two
    elements share an ID, the invariant holds after the toggle, and removing
    the row that holds the first copy makes the lookups resolve to the second,
    untouched copy, where both sections are visible. *)
Lemma C5_counterexample :
  consistent (document duplicate_ids_toggled) "" ∧
  ¬ consistent (document (state_of (removeDynamicField [0; 0; 0] duplicate_ids_toggled))) "".
Proof.
  split; [apply toggle_establishes_consistent|].
  intros H.
  destruct (H (plain "div" "stdio-fields-container") (plain "div" "http-fields-container")
              (plain "input" "command") (plain "input" "url")
              eq_refl eq_refl eq_refl eq_refl) as [Hboth _].
  apply Hboth. split; vm_compute; congruence.
Qed.

(** C5, amended. After every call of the toggle, the elements the four
    lookups of its prefix resolve to satisfy: at most one section is visible
    and each input is required iff its section is visible.  That invariant is
    preserved by every toggle (for any prefix) and every row insertion in
    every document, and by every row removal in a document in which no two
    elements share an ID. *)
Theorem C5_invariant_established_and_preserved (formPrefix : string) (σ : page) :
  (∀ serverType,
     consistent (document (state_of (toggleServerTypeSpecificFields serverType formPrefix σ)))
                formPrefix) ∧
  (∀ op,
     consistent (document σ) formPrefix →
     (∀ r, op = Remove r → unique_ids (document σ)) →
     consistent (document (state_of (perform op σ))) formPrefix).
Proof.
  split.
  - intros serverType. apply toggle_establishes_consistent.
  - intros op. apply perform_preserves_consistent.
Qed.

Lemma C5_witness :
  consistent
    (document (state_of (perform (Remove [0; 0; 1; 1; 0; 3; 1]) single_add_with_row)))
    "single-add-".
Proof.
  apply (proj2 (C5_invariant_established_and_preserved "single-add-" single_add_with_row)).
  - apply (proj2 (C5_invariant_established_and_preserved "single-add-" single_add_toggled)).
    + apply (proj1 (C5_invariant_established_and_preserved "single-add-" single_add_page)).
    + intros r Hr. discriminate Hr.
  - intros r _. apply (bool_decide_unpack _). vm_compute. exact I.
Defined.

(** C6. Inserting a row of either kind and then removing through any
    element of the new row (the row itself, or a descendant such as its
    remove button) restores the container's child count and its children;
    the whole document is as before the insertion. *)
Theorem C6_add_then_remove_restores
    (k : kind) (formPrefix : string) (σ : page) (c q : path) :
  Dom.getElementById (formPrefix +:+ container_suffix k) (document σ) = Some c →
  is_Some (sub_element q (new_field_row (row_html k))) →
  let n := length (children_at c (document σ)) in
  ∃ σ1 σ2,
    addRepeatableField k formPrefix σ = Normal () σ1 ∧
    length (children_at c (document σ1)) = S n ∧
    removeDynamicField (c ++ [n] ++ q) σ1 = Normal () σ2 ∧
    length (children_at c (document σ2)) = n ∧
    children_at c (document σ2) = children_at c (document σ) ∧
    document σ2 = document σ.
Proof.
  intros Hc [e' Hq] n. rewrite add_run, Hc.
  destruct (getElementById_sound _ _ _ Hc) as (e & He & _).
  destruct (element_at_is_Elem _ _ _ He) as (ch & Hn).
  assert (c ≠ []) as Hne by (by intros ->).
  pose proof (children_at_Elem _ _ _ _ Hn) as Hch. subst n. rewrite Hch.
  set (row := new_field_row (row_html k)).
  set (doc1 := alter_at (on_children (λ l, l ++ [row])) c (document σ)).
  assert (children_at c doc1 = ch ++ [row]) as Hch1.
  { unfold doc1. by rewrite (children_at_alter_children _ _ _ e), Hch. }
  assert (node_at (c ++ [length ch]) doc1 = Some row) as Hrow.
  { rewrite node_at_app by done. unfold doc1. rewrite node_at_alter_at, Hn. simpl.
    by rewrite lookup_app_r, Nat.sub_diag. }
  assert (element_at (c ++ [length ch] ++ q) doc1 = Some e') as Hbtn.
  { rewrite app_assoc, element_at_app, Hrow by (by destruct c). done. }
  assert (Dom.closest "dynamic-field-row" (c ++ [length ch] ++ q) doc1
          = Some (c ++ [length ch])) as Hclosest.
  { rewrite app_assoc.
    eapply closest_in_subtree; [by destruct c|exact Hrow|apply row_marker|done|].
    apply row_inner_no_marker. }
  do 2 eexists. split; [done|]. cbn [document]. fold row doc1.
  split; [by rewrite Hch1, length_app, Nat.add_comm|].
  rewrite remove_run. cbn [document]. rewrite Hbtn, Hclosest.
  split; [done|]. cbn [document]. unfold doc1. rewrite (remove_appended _ _ _ e ch Hn).
  by rewrite Hch.
Qed.

Lemma C6_witness :
  let n := length (children_at [0; 0; 1; 1] (document single_add_page)) in
  ∃ σ1 σ2,
    addRepeatableField Argument "single-add-" single_add_page = Normal () σ1 ∧
    length (children_at [0; 0; 1; 1] (document σ1)) = S n ∧
    removeDynamicField ([0; 0; 1; 1] ++ [n] ++ [3; 1]) σ1 = Normal () σ2 ∧
    length (children_at [0; 0; 1; 1] (document σ2)) = n ∧
    children_at [0; 0; 1; 1] (document σ2)
    = children_at [0; 0; 1; 1] (document single_add_page) ∧
    document σ2 = document single_add_page.
Proof.
  apply (C6_add_then_remove_restores Argument "single-add-" single_add_page
           [0; 0; 1; 1] [3; 1]).
  - reflexivity.
  - vm_compute. eexists. reflexivity.
Defined.

(** C7. Calling the toggle twice in a row with the same arguments leaves the
    same document as calling it once, for every variant, prefix and starting
    document; both runs return normally. *)
Theorem C7_toggle_idempotent (serverType formPrefix : string) (σ : page) :
  ∃ σ1 σ2,
    toggleServerTypeSpecificFields serverType formPrefix σ = Normal () σ1 ∧
    (toggleServerTypeSpecificFields serverType formPrefix;;
     toggleServerTypeSpecificFields serverType formPrefix) σ = Normal () σ2 ∧
    document σ2 = document σ1.
Proof.
  unfold mbind, JS_bind. rewrite toggle_run. do 2 eexists. split; [done|].
  rewrite toggle_run. split; [done|]. cbn [document].
  rewrite !getElementById_apply_writes. apply apply_writes_idempotent.
Qed.

(** C8, as stated, fails on the logging: the lookup of a missing command
    input is not reported.  With the command input absent the call prints its
    two trace lines and nothing about the failed lookup. *)
Lemma C8_counterexample :
  Dom.getElementById "command" (document no_command_page) = None ∧
  console (state_of (toggleServerTypeSpecificFields "stdio" "" no_command_page))
  = [(DEBUG, "[toggleServerTypeSpecificFields] Called for prefix '' with type 'stdio'");
     (DEBUG, "[toggleServerTypeSpecificFields] Showing stdio fields for ")].
Proof. split; reflexivity. Qed.

(** C8, amended. No operation throws when an expected element is missing
    (the removal is given an element of the document).  The toggle warns
    about a missing section container, stays silent about a missing command
    or url input (its console lines depend on the two containers only), and
    still sets every element that is present; an insertion whose container
    is missing and a removal without an enclosing row warn and leave the
    document as it is. *)
Theorem C8_missing_elements_never_throw (op : operation) (σ : page) :
  (∀ r, op = Remove r → is_Some (element_at r (document σ))) →
  ∃ σ',
    perform op σ = Normal () σ' ∧
    match op with
    | Toggle serverType formPrefix =>
        let s := Dom.getElementById (formPrefix +:+ "stdio-fields-container") (document σ) in
        let h := Dom.getElementById (formPrefix +:+ "http-fields-container") (document σ) in
        console σ' = console σ ++ toggle_console serverType formPrefix s h ∧
        (s = None →
         (WARN, "[toggleServerTypeSpecificFields] Element not found: "
                +:+ formPrefix +:+ "stdio-fields-container") ∈ console σ') ∧
        (h = None →
         (WARN, "[toggleServerTypeSpecificFields] Element not found: "
                +:+ formPrefix +:+ "http-fields-container") ∈ console σ') ∧
        (∀ e, lookup_element (formPrefix +:+ "stdio-fields-container") (document σ') = Some e →
              display e = if is_stdio serverType then "block" else "none") ∧
        (∀ e, lookup_element (formPrefix +:+ "http-fields-container") (document σ') = Some e →
              display e = if is_http serverType then "block" else "none") ∧
        (∀ e, lookup_element (formPrefix +:+ "command") (document σ') = Some e →
              required e = is_stdio serverType && truthy s) ∧
        (∀ e, lookup_element (formPrefix +:+ "url") (document σ') = Some e →
              required e = is_http serverType && truthy h)
    | Add k formPrefix =>
        Dom.getElementById (formPrefix +:+ container_suffix k) (document σ) = None →
        document σ' = document σ ∧
        console σ' = console σ ++
          [(WARN, match k with
                  | Argument => "[addArgumentField] Container not found: "
                  | EnvPair => "[addEnvVarField] Container not found: "
                  end +:+ formPrefix +:+ container_suffix k)]
    | Remove r =>
        Dom.closest "dynamic-field-row" r (document σ) = None →
        document σ' = document σ ∧
        console σ' = console σ ++
          [(WARN, "[removeDynamicField] Could not find parent '.dynamic-field-row' to remove.")]
    end.
Proof.
  intros Hr. destruct op as [serverType formPrefix|k formPrefix|r]; cbn [perform].
  - pose proof (toggle_effects serverType formPrefix σ) as E. cbv zeta in E.
    rewrite toggle_run in *. cbn [state_of] in E. eexists. split; [done|].
    cbn [console]. split; [done|]. unfold toggle_console.
    split; [|split; [|exact E]].
    + intros ->. cbn [truthy]. rewrite !elem_of_app, !list_elem_of_singleton. auto.
    + intros ->. cbn [truthy]. rewrite !elem_of_app, !list_elem_of_singleton. auto.
  - rewrite add_run. destruct (Dom.getElementById _ (document σ)); eexists; by split.
  - rewrite remove_run. destruct (Hr r eq_refl) as [e ->].
    destruct (Dom.closest _ _ _); eexists; by split.
Qed.

Lemma C8_witness :
  ∃ σ',
    perform (Remove [0; 0; 1; 0]) single_add_page = Normal () σ' ∧
    document σ' = document single_add_page ∧
    console σ' = console single_add_page ++
      [(WARN, "[removeDynamicField] Could not find parent '.dynamic-field-row' to remove.")].
Proof.
  destruct (C8_missing_elements_never_throw (Remove [0; 0; 1; 0]) single_add_page)
    as (σ' & Hrun & Hwarn).
  - intros r Hr. injection Hr as <-. vm_compute. eexists. reflexivity.
  - exists σ'. split; [exact Hrun|]. apply Hwarn. reflexivity.
Defined.

(** C9. Toggling one form instance leaves every element of another one
    unchanged: for distinct prefixes A and B, an element whose ID is B
    followed by one of the controller's ID suffixes has the same own data
    after the toggle for A as before. *)
Theorem C9_toggle_leaves_other_instances_alone
    (serverType prefixA prefixB sfx : string) (σ : page) (q : path) (e : element) :
  prefixA ≠ prefixB →
  sfx ∈ id_suffixes →
  element_at q (document σ) = Some e →
  id e = prefixB +:+ sfx →
  element_at q (document (state_of (toggleServerTypeSpecificFields serverType prefixA σ)))
  = Some e.
Proof. apply toggle_other_prefix. Qed.

Lemma C9_witness :
  element_at [0; 0; 5; 0]
    (document (state_of (toggleServerTypeSpecificFields "sse" "single-add-" two_forms_page)))
  = Some (plain "input" "edit-url").
Proof.
  apply (C9_toggle_leaves_other_instances_alone "sse" "single-add-" "edit-" "url").
  - discriminate.
  - suffix_solver.
  - reflexivity.
  - reflexivity.
Defined.

(** C10. Called on an element that itself carries the class
    dynamic-field-row, the removal detaches that very element: [closest]
    matches the starting element, the element leaves its parent's child list
    and nothing is logged.  The warning branch is taken exactly when neither
    the element nor any of its ancestors carries the class. *)
Theorem C10_removal_matches_the_element_itself (σ : page) (r : path) (e : element) :
  element_at r (document σ) = Some e →
  (Dom.has_class "dynamic-field-row" e = true →
   Dom.closest "dynamic-field-row" r (document σ) = Some r ∧
   removeDynamicField r σ
   = Normal () (Page (remove_at r (document σ)) (console σ) (listeners σ)) ∧
   ∀ q i, r = q ++ [i] →
          children_at q (remove_at r (document σ)) = delete i (children_at q (document σ))) ∧
  (removeDynamicField r σ
   = Normal () (Page (document σ)
                     (console σ ++
                      [(WARN, "[removeDynamicField] Could not find parent '.dynamic-field-row' to remove.")])
                     (listeners σ))
   ↔ Forall (λ q, Dom.matches_class "dynamic-field-row" (document σ) q = false)
            (inclusive_ancestors r)) ∧
  r ∈ inclusive_ancestors r.
Proof.
  intros He. split; [|split].
  - intros Hcls. pose proof (closest_self _ _ _ _ He Hcls) as Hc.
    split; [done|]. rewrite remove_run, He, Hc. split; [done|].
    intros q i ->. apply children_at_remove_at.
  - rewrite remove_run, He, <- closest_None.
    destruct (Dom.closest _ _ _) as [fr|]; split; try done.
    intros [= Hd Hcon]. exfalso.
    apply (f_equal length) in Hcon. rewrite length_app in Hcon. simpl in Hcon. lia.
  - destruct (inclusive_ancestors_head r) as [rest ->]; [|left].
    intros ->. done.
Qed.

Lemma C10_witness :
  Dom.closest "dynamic-field-row" [0; 0; 1; 1; 0] (document single_add_with_row)
  = Some [0; 0; 1; 1; 0] ∧
  removeDynamicField [0; 0; 1; 1; 0] single_add_with_row
  = Normal () (Page (remove_at [0; 0; 1; 1; 0] (document single_add_with_row))
                    (console single_add_with_row) (listeners single_add_with_row)) ∧
  ∀ q i, [0; 0; 1; 1; 0] = q ++ [i] →
         children_at q (remove_at [0; 0; 1; 1; 0] (document single_add_with_row))
         = delete i (children_at q (document single_add_with_row)).
Proof.
  apply (proj1 (C10_removal_matches_the_element_itself single_add_with_row [0; 0; 1; 1; 0]
                  (Element "div" "" ["row"; "dynamic-field-row"] [("margin-bottom", "5px")]
                           [] "" false)
                  eq_refl)).
  reflexivity.
Defined.

(* ================================================================== *)
(** * Lemmas for the further properties *)
(* ================================================================== *)

Lemma toggle_suffixes_id_suffixes t : t ∈ toggle_suffixes → t ∈ id_suffixes.
Proof.
  unfold toggle_suffixes. intros H.
  repeat (apply elem_of_cons in H as [->|H]; [suffix_solver|]).
  by apply elem_of_nil in H.
Qed.

Ltac toggle_suffix_solver :=
  solve [ unfold toggle_suffixes;
          repeat first [ apply list_elem_of_here | apply list_elem_of_further ] ].

Lemma style_get_style_set_ne prop prop' v st :
  prop ≠ prop' → Dom.style_get prop (Dom.style_set prop' v st) = Dom.style_get prop st.
Proof.
  intros Hne. induction st as [|[k w] st IH]; simpl.
  - by rewrite decide_False by congruence.
  - destruct (decide (k = prop')) as [->|Hk]; simpl.
    + by rewrite !decide_False by congruence.
    + destruct (decide (k = prop)); [done|exact IH].
Qed.

Lemma same_but_display_required_refl e : same_but_display_required e e.
Proof. by repeat split. Qed.

Lemma effect_same_but_display_required w e e' :
  same_but_display_required e e' → same_but_display_required e (effect w e').
Proof.
  intros (H1 & H2 & H3 & H4 & H5 & H6). destruct w as [p v|p b]; repeat split; try done.
  intros prop Hp. cbn [effect Dom.set_style style].
  rewrite style_get_style_set_ne by done. by apply H6.
Qed.

Lemma effects_on_same_but_display_required q ws e :
  same_but_display_required e (effects_on q ws e).
Proof.
  unfold effects_on.
  assert (∀ e', same_but_display_required e e' →
    same_but_display_required e
      (foldl (λ e0 w, if decide (target_of w = q) then effect w e0 else e0) e' ws)) as H.
  { induction ws as [|w ws IH]; intros e' He'; [done|]. simpl. apply IH.
    destruct (decide _); [by apply effect_same_but_display_required|done]. }
  apply H, same_but_display_required_refl.
Qed.

(** Every write of a call goes to one of the four elements it looked up. *)
Lemma toggle_writes_targets serverType formPrefix doc :
  Forall (λ w, ∃ t, t ∈ toggle_suffixes ∧
                    Dom.getElementById (formPrefix +:+ t) doc = Some (target_of w))
    (toggle_writes serverType
       (Dom.getElementById (formPrefix +:+ "stdio-fields-container") doc)
       (Dom.getElementById (formPrefix +:+ "http-fields-container") doc)
       (Dom.getElementById (formPrefix +:+ "command") doc)
       (Dom.getElementById (formPrefix +:+ "url") doc)).
Proof.
  unfold toggle_writes.
  destruct (Dom.getElementById (formPrefix +:+ "stdio-fields-container") doc) as [s|] eqn:Hs;
    destruct (Dom.getElementById (formPrefix +:+ "http-fields-container") doc) as [h|] eqn:Hh;
    destruct (Dom.getElementById (formPrefix +:+ "command") doc) as [c|] eqn:Hc;
    destruct (Dom.getElementById (formPrefix +:+ "url") doc) as [u|] eqn:Hu;
    destruct (is_stdio serverType), (is_http serverType);
    cbn [writes_to app truthy andb];
    repeat (apply Forall_cons; split;
            [cbn [target_of]; eexists; split; [|eassumption]; toggle_suffix_solver|]);
    apply Forall_nil_2.
Qed.

Lemma toggle_writes_slots v1 v2 (s h c u : option path) :
  slot <$> toggle_writes v1 s h c u ⊆ slot <$> toggle_writes v2 s h c u.
Proof.
  unfold toggle_writes.
  destruct s as [s|], h as [h|], c as [c|], u as [u|];
    destruct (is_stdio v1), (is_http v1), (is_stdio v2), (is_http v2);
    cbn [writes_to app truthy andb fmap list_fmap slot];
    intros x Hx;
    repeat (apply elem_of_cons in Hx as [->|Hx];
            [solve [repeat first [apply list_elem_of_here|apply list_elem_of_further]]|]);
    by apply elem_of_nil in Hx.
Qed.

Lemma apply_write_writes_commute w ws doc :
  Forall (λ w', slot w ≠ slot w') ws →
  apply_write w (apply_writes ws doc) = apply_writes ws (apply_write w doc).
Proof.
  revert doc. induction ws as [|w' ws IH]; intros doc Hf; [done|].
  apply Forall_cons in Hf as [Hw Hf]. simpl.
  rewrite IH by done. by rewrite (apply_write_commute w w').
Qed.

Lemma apply_writes_commute ws1 ws2 doc :
  Forall (λ w1, Forall (λ w2, slot w1 ≠ slot w2) ws2) ws1 →
  apply_writes ws1 (apply_writes ws2 doc) = apply_writes ws2 (apply_writes ws1 doc).
Proof.
  revert doc. induction ws1 as [|w ws1 IH]; intros doc Hf; [done|].
  apply Forall_cons in Hf as [Hw Hf]. simpl.
  rewrite <- IH by done. by rewrite apply_write_writes_commute.
Qed.

Lemma slot_target w w' : target_of w ≠ target_of w' → slot w ≠ slot w'.
Proof. destruct w, w'; simpl; congruence. Qed.

Lemma sub_element_append_in r p q n e :
  sub_element q n = Some e →
  sub_element q (alter_in (on_children (λ ch, ch ++ [r])) p n) = Some e.
Proof.
  revert q n. induction p as [|i p IH]; intros q n Hq.
  - destruct q as [|j q]; [by destruct n|].
    rewrite sub_element_cons in *. destruct n as [e0 ch|s]; [|done].
    cbn [alter_in on_children children] in *.
    destruct (ch !! j) as [c|] eqn:Hj; [|done].
    by rewrite (lookup_app_l_Some _ _ _ _ Hj).
  - destruct q as [|j q]; [by destruct n|].
    rewrite sub_element_cons in *. destruct n as [e0 ch|s]; [|done].
    cbn [alter_in on_children children] in *.
    destruct (ch !! j) as [c|] eqn:Hj; [|done]. simpl in Hq.
    destruct (decide (i = j)) as [->|Hij].
    + rewrite list_lookup_alter_eq, Hj. simpl. by apply IH.
    + by rewrite list_lookup_alter_ne, Hj.
Qed.

(** Appending a child disturbs no existing element. *)
Lemma element_at_append r p q doc e :
  element_at q doc = Some e →
  element_at q (alter_at (on_children (λ ch, ch ++ [r])) p doc) = Some e.
Proof.
  destruct p as [|i p]; [done|]. destruct q as [|j q]; [done|].
  rewrite !element_at_cons. cbn [alter_at].
  destruct (doc !! j) as [c|] eqn:Hj; [|done]. simpl.
  destruct (decide (i = j)) as [->|Hij].
  - rewrite list_lookup_alter_eq, Hj. simpl. apply sub_element_append_in.
  - by rewrite list_lookup_alter_ne, Hj.
Qed.

Lemma getElementById_append x r p doc :
  filter (λ pe : path * element, id pe.2 = x) (tree_order r) = [] →
  Dom.getElementById x (alter_at (on_children (λ ch, ch ++ [r])) p doc)
  = Dom.getElementById x doc.
Proof.
  intros Hr. unfold Dom.getElementById. case_decide; [done|].
  by rewrite <- (elements_of_append x r p doc Hr).
Qed.

Lemma getElementById_add k formPrefix σ x :
  Dom.getElementById x (document (state_of (addRepeatableField k formPrefix σ)))
  = Dom.getElementById x (document σ).
Proof.
  rewrite add_run. destruct (Dom.getElementById _ (document σ)) as [c|]; [|done].
  cbn [state_of document]. destruct (decide (x = "")) as [->|Hx].
  { unfold Dom.getElementById. by rewrite !decide_True. }
  by apply getElementById_append, row_matches_no_id.
Qed.

Lemma includes_false_suffix (P pat a b : string) :
  includes P pat = false → P = a +:+ b → String.prefix pat b = false.
Proof.
  revert P. induction a as [|c a IH]; intros P Hinc ->.
  - destruct b; simpl in Hinc; by apply orb_false_iff in Hinc as [? _].
  - simpl in Hinc. apply orb_false_iff in Hinc as [_ Hinc]. by apply (IH (a +:+ b)).
Qed.

Lemma prefix_empty (s : string) : String.prefix "" s = true.
Proof. by destruct s. Qed.

Lemma prefix_app_long (pat b x : string) :
(String.length pat ≤ String.length b)%nat →
  String.prefix pat (b +:+ x) = String.prefix pat b.
Proof.
  revert b. induction pat as [|c p IH]; intros b Hlen; [by rewrite !prefix_empty|].
  destruct b as [|d b]; simpl in Hlen; [lia|]. simpl.
  destruct (Ascii.ascii_dec c d); [|done]. apply IH. lia.
Qed.

(** "server_type" does not overlap itself: it cannot start inside the last
    ten characters before a trailing "server_type". *)
Lemma server_type_no_overlap (b : string) :
  b ≠ "" → (String.length b < 11)%nat → String.prefix "server_type" (b +:+ "server_type") = false.
Proof.
  intros Hb Hlen. apply not_true_is_false. intros H.
  apply String.prefix_correct in H.
  do 11 (destruct b as [|? b]; [first [done | simpl in H; congruence]|]).
  simpl in Hlen. lia.
Qed.

Lemma endsWith_app (P sfx : string) : JsString.endsWith (P +:+ sfx) sfx = true.
Proof.
  induction P as [|c P IH].
  - change ("" +:+ sfx) with sfx.
    destruct sfx; cbn [JsString.endsWith]; by rewrite bool_decide_true.
  - change (String c P +:+ sfx) with (String c (P +:+ sfx)).
    cbn [JsString.endsWith]. rewrite IH. apply orb_true_r.
Qed.

Lemma keys_preserved_refl doc : keys_preserved doc doc.
Proof. done. Qed.

Lemma keys_preserved_trans doc1 doc2 doc3 :
  keys_preserved doc1 doc2 → keys_preserved doc2 doc3 → keys_preserved doc1 doc3.
Proof. intros H12 H23 q. by rewrite H23, H12. Qed.

Lemma keys_preserved_apply_writes ws doc : keys_preserved doc (apply_writes ws doc).
Proof.
  intros q. rewrite element_at_apply_writes. destruct (element_at q doc) as [e|]; [|done].
  simpl. f_equal.
  destruct (effects_on_same_but_display_required q ws e) as (_ & Hid & _ & _ & Hv & _).
  unfold select_key. by rewrite Hid, Hv.
Qed.

Lemma init_select_step (M_updateTextFields : path → JS unit) (doc0 : list node)
    (r : path) (e : element) (τ : page) :
  (∀ w τ, ∃ τ', M_updateTextFields w τ = Normal () τ' ∧
                listeners τ' = listeners τ ∧
                keys_preserved (document τ) (document τ')) →
  keys_preserved doc0 (document τ) →
  element_at r doc0 = Some e →
  ∃ τ',
    init_select M_updateTextFields r τ = Normal () τ' ∧
    keys_preserved doc0 (document τ') ∧
    listeners τ' = listeners τ ++ [(r, formPrefix_of (id e))].
Proof.
  intros HU Hinv He.
  pose proof (Hinv r) as Hr. rewrite He in Hr.
  destruct (element_at r (document τ)) as [sel|] eqn:Hsel; [|done].
  injection Hr as Hid Hval.
  unfold init_select, mbind, JS_bind, read_element. rewrite Hsel.
  cbv beta iota zeta. unfold console_emit at 1. rewrite toggle_run.
  unfold addChangeListener, getElementById. cbn [document console listeners].
  rewrite getElementById_apply_writes.
  assert (keys_preserved doc0
            (apply_writes
               (toggle_writes (value sel)
                  (Dom.getElementById (formPrefix_of (id sel) +:+ "stdio-fields-container")
                     (document τ))
                  (Dom.getElementById (formPrefix_of (id sel) +:+ "http-fields-container")
                     (document τ))
                  (Dom.getElementById (formPrefix_of (id sel) +:+ "command") (document τ))
                  (Dom.getElementById (formPrefix_of (id sel) +:+ "url") (document τ)))
               (document τ))) as Hinv'.
  { eapply keys_preserved_trans; [exact Hinv|apply keys_preserved_apply_writes]. }
  destruct (Dom.getElementById (formPrefix_of (id sel) +:+ "form-wrapper") (document τ))
    as [w|]; cbn [truthy when deref mret JS_ret].
  - match goal with |- context [M_updateTextFields w ?s] =>
      destruct (HU w s) as (τ' & -> & Hlis & Hkeys) end.
    unfold console_emit. eexists. split; [done|]. cbn [document listeners] in *.
    split; [by eapply keys_preserved_trans|]. by rewrite Hlis, Hid.
  - eexists. split; [done|]. cbn [document listeners]. split; [done|]. by rewrite Hid.
Qed.

Lemma forEach_init_select (M_updateTextFields : path → JS unit) (doc0 : list node)
    (sels : list (path * element)) (τ : page) :
  (∀ w τ, ∃ τ', M_updateTextFields w τ = Normal () τ' ∧
                listeners τ' = listeners τ ∧
                keys_preserved (document τ) (document τ')) →
  keys_preserved doc0 (document τ) →
  Forall (λ pe, element_at pe.1 doc0 = Some pe.2) sels →
  ∃ τ',
    forEach (init_select M_updateTextFields) sels.*1 τ = Normal () τ' ∧
    keys_preserved doc0 (document τ') ∧
    listeners τ' = listeners τ ++ ((λ pe, (pe.1, formPrefix_of (id pe.2))) <$> sels).
Proof.
  intros HU. revert τ. induction sels as [|[r e] sels IH]; intros τ Hinv Hs.
  - exists τ. cbn. by rewrite app_nil_r.
  - apply Forall_cons in Hs as [He Hs]. cbn [fmap list_fmap fst forEach].
    destruct (init_select_step M_updateTextFields doc0 r e τ HU Hinv He)
      as (τ1 & Hrun & Hinv1 & Hlis1).
    destruct (IH τ1 Hinv1 Hs) as (τ' & Hrun' & Hinv' & Hlis').
    exists τ'. unfold mbind, JS_bind. rewrite Hrun. split; [exact Hrun'|].
    split; [done|]. rewrite Hlis', Hlis1, <- app_assoc. done.
Qed.

Lemma alter_in_element_append_commute f r p c n :
  is_Some (descend p n) →
  alter_in (on_element f) p (alter_in (on_children (λ ch, ch ++ [r])) c n)
  = alter_in (on_children (λ ch, ch ++ [r])) c (alter_in (on_element f) p n).
Proof.
  revert c n. induction p as [|i p IH]; intros c n Hp.
  - destruct c; by destruct n.
  - destruct n as [e ch|s]; [|by destruct Hp]. simpl in Hp.
    destruct (ch !! i) as [x|] eqn:Hi; [|by destruct Hp]. simpl in Hp.
    destruct c as [|j c]; cbn [alter_in on_children]; f_equal.
    + apply alter_app_l. by eapply lookup_lt_Some.
    + destruct (decide (i = j)) as [->|Hij].
      * rewrite !list_alter_alter_eq. apply list_alter_ext; [|done].
        intros y Hy. simpl. apply IH. congruence.
      * by apply list_alter_alter_ne.
Qed.

Lemma alter_at_element_append_commute f r p c doc :
  is_Some (element_at p doc) →
  alter_at (on_element f) p (alter_at (on_children (λ ch, ch ++ [r])) c doc)
  = alter_at (on_children (λ ch, ch ++ [r])) c (alter_at (on_element f) p doc).
Proof.
  intros [e He]. destruct p as [|i p]; [done|]. destruct c as [|j c]; [done|].
  rewrite element_at_cons in He. cbn [alter_at].
  destruct (doc !! i) as [x|] eqn:Hi; [|done]. simpl in He.
  destruct (decide (i = j)) as [->|Hij].
  - rewrite !list_alter_alter_eq. apply list_alter_ext; [|done].
    intros y Hy. simpl. apply alter_in_element_append_commute.
    assert (y = x) as -> by congruence.
    unfold sub_element in He. destruct (descend p x); [by eexists|done].
  - by apply list_alter_alter_ne.
Qed.

Lemma apply_writes_append_commute ws r c doc :
  Forall (λ w, is_Some (element_at (target_of w) doc)) ws →
  apply_writes ws (alter_at (on_children (λ ch, ch ++ [r])) c doc)
  = alter_at (on_children (λ ch, ch ++ [r])) c (apply_writes ws doc).
Proof.
  revert doc. induction ws as [|w ws IH]; intros doc Hf; [done|].
  apply Forall_cons in Hf as [Hw Hf]. simpl. unfold apply_write at 1.
  rewrite alter_at_element_append_commute by done. apply IH.
  eapply Forall_impl; [exact Hf|]. intros w' [e He]. simpl. unfold apply_write.
  destruct (decide (target_of w' = target_of w)) as [->|Hne].
  - rewrite element_at_alter_at_eq. destruct Hw as [e0 ->]. by eexists.
  - rewrite element_at_alter_at_ne by done. by eexists.
Qed.

Lemma consistent_lookups_preserved doc doc' formPrefix :
  lookups_preserved doc doc' → consistent doc formPrefix → consistent doc' formPrefix.
Proof.
  intros Hl Hc s' h' c' u' Hs Hh Hcm Hu.
  destruct (Hl _ _ Hs) as (s & Hs0 & Hsd & _). destruct (Hl _ _ Hh) as (h & Hh0 & Hhd & _).
  destruct (Hl _ _ Hcm) as (c & Hc0 & _ & Hcr). destruct (Hl _ _ Hu) as (u & Hu0 & _ & Hur).
  destruct (Hc s h c u Hs0 Hh0 Hc0 Hu0) as (H1 & H2 & H3).
  unfold visible in *. rewrite Hsd, Hhd, Hcr, Hur. done.
Qed.

Lemma init_select_establishes (M_updateTextFields : path → JS unit) (doc0 : list node)
    (r : path) (e : element) (τ : page) :
  (∀ w τ, ∃ τ', M_updateTextFields w τ = Normal () τ' ∧
                listeners τ' = listeners τ ∧
                keys_preserved (document τ) (document τ') ∧
                lookups_preserved (document τ) (document τ')) →
  keys_preserved doc0 (document τ) →
  element_at r doc0 = Some e →
  ∃ τ',
    init_select M_updateTextFields r τ = Normal () τ' ∧
    keys_preserved doc0 (document τ') ∧
    consistent (document τ') (formPrefix_of (id e)) ∧
    ∀ P, consistent (document τ) P → consistent (document τ') P.
Proof.
  intros HU Hinv He.
  pose proof (Hinv r) as Hr. rewrite He in Hr.
  destruct (element_at r (document τ)) as [sel|] eqn:Hsel; [|done].
  injection Hr as Hid Hval. rewrite <- Hid.
  pose proof (toggle_establishes_consistent (value sel) (formPrefix_of (id sel)) τ) as Hnew.
  assert (∀ P, consistent (document τ) P →
               consistent (document (state_of (toggleServerTypeSpecificFields (value sel)
                                                 (formPrefix_of (id sel)) τ))) P) as Hold.
  { intros P HP.
    apply (perform_preserves_consistent (Toggle (value sel) (formPrefix_of (id sel))) τ P HP).
    intros r' Hr'. discriminate Hr'. }
  unfold init_select, mbind, JS_bind, read_element. rewrite Hsel.
  cbv beta iota zeta. unfold console_emit at 1. rewrite toggle_run in *.
  cbn [state_of document] in Hnew, Hold.
  unfold addChangeListener, getElementById. cbn [document console listeners].
  rewrite getElementById_apply_writes.
  assert (keys_preserved doc0
            (apply_writes
               (toggle_writes (value sel)
                  (Dom.getElementById (formPrefix_of (id sel) +:+ "stdio-fields-container")
                     (document τ))
                  (Dom.getElementById (formPrefix_of (id sel) +:+ "http-fields-container")
                     (document τ))
                  (Dom.getElementById (formPrefix_of (id sel) +:+ "command") (document τ))
                  (Dom.getElementById (formPrefix_of (id sel) +:+ "url") (document τ)))
               (document τ))) as Hinv'.
  { eapply keys_preserved_trans; [exact Hinv|apply keys_preserved_apply_writes]. }
  destruct (Dom.getElementById (formPrefix_of (id sel) +:+ "form-wrapper") (document τ))
    as [w|]; cbn [truthy when deref mret JS_ret].
  - match goal with |- context [M_updateTextFields w ?s] =>
      destruct (HU w s) as (τ' & -> & Hlis & Hkeys & Hlook) end.
    unfold console_emit. eexists. split; [done|]. cbn [document listeners] in *.
    split; [by eapply keys_preserved_trans|].
    split; [by eapply consistent_lookups_preserved|].
    intros P HP. eapply consistent_lookups_preserved; [exact Hlook|by apply Hold].
  - eexists. split; [done|]. cbn [document listeners].
    split; [exact Hinv'|]. split; [exact Hnew|exact Hold].
Qed.

Lemma forEach_init_select_establishes (M_updateTextFields : path → JS unit)
    (doc0 : list node) (sels seen : list (path * element)) (τ : page) :
  (∀ w τ, ∃ τ', M_updateTextFields w τ = Normal () τ' ∧
                listeners τ' = listeners τ ∧
                keys_preserved (document τ) (document τ') ∧
                lookups_preserved (document τ) (document τ')) →
  keys_preserved doc0 (document τ) →
  Forall (λ pe, element_at pe.1 doc0 = Some pe.2) sels →
  Forall (λ pe, consistent (document τ) (formPrefix_of (id pe.2))) seen →
  ∃ τ',
    forEach (init_select M_updateTextFields) sels.*1 τ = Normal () τ' ∧
    Forall (λ pe, consistent (document τ') (formPrefix_of (id pe.2))) (seen ++ sels).
Proof.
  intros HU. revert seen τ. induction sels as [|[r e] sels IH]; intros seen τ Hinv Hs Hseen.
  - exists τ. rewrite app_nil_r. by split.
  - apply Forall_cons in Hs as [He Hs]. cbn [fmap list_fmap fst forEach].
    destruct (init_select_establishes M_updateTextFields doc0 r e τ HU Hinv He)
      as (τ1 & Hrun & Hinv1 & Hnew & Hold).
    destruct (IH (seen ++ [(r, e)]) τ1 Hinv1 Hs) as (τ' & Hrun' & Hall).
    { apply Forall_app. split; [|by apply Forall_singleton].
      eapply Forall_impl; [exact Hseen|]. intros pe. apply Hold. }
    exists τ'. unfold mbind, JS_bind. rewrite Hrun. split; [exact Hrun'|].
    by rewrite <- app_assoc in Hall.
Qed.

(* ================================================================== *)
(** * Further properties of main.js *)
(* ================================================================== *)

(** X1. A call of the toggle overrides whatever an earlier call for the same
    prefix did: calling it with one variant and then with another leaves the
    same document as calling it with the second variant alone. *)
Theorem X1_toggle_last_call_wins (v1 v2 formPrefix : string) (σ : page) :
  document (state_of ((toggleServerTypeSpecificFields v1 formPrefix;;
                       toggleServerTypeSpecificFields v2 formPrefix) σ))
  = document (state_of (toggleServerTypeSpecificFields v2 formPrefix σ)).
Proof.
  unfold mbind, JS_bind. rewrite (toggle_run v1). rewrite !toggle_run.
  cbn [state_of document]. rewrite !getElementById_apply_writes.
  apply apply_writes_absorb, toggle_writes_slots.
Qed.

(** X2. The toggle writes nothing but [style.display] and [required]: every
    element keeps its reference, tag, id, classes, attributes, value and all
    other style properties, and an element that is not one of the four the
    call looked up is left exactly as it was. *)
Theorem X2_toggle_writes_only_display_and_required
    (serverType formPrefix : string) (σ : page) (q : path) (e : element) :
  element_at q (document σ) = Some e →
  ∃ e',
    element_at q
      (document (state_of (toggleServerTypeSpecificFields serverType formPrefix σ))) = Some e' ∧
    same_but_display_required e e' ∧
    ((∀ t, t ∈ toggle_suffixes →
           Dom.getElementById (formPrefix +:+ t) (document σ) ≠ Some q) →
     e' = e).
Proof.
  intros He. rewrite toggle_run. cbn [state_of document].
  rewrite element_at_apply_writes, He. eexists. split; [done|].
  split; [apply effects_on_same_but_display_required|].
  intros Hq. apply effects_on_untouched.
  eapply Forall_impl; [apply toggle_writes_targets|].
  intros w (t & Ht & Hw) Heq. rewrite Heq in Hw. by apply (Hq t).
Qed.

Lemma X2_witness :
  ∃ e',
    element_at [0; 0; 0]
      (document (state_of (toggleServerTypeSpecificFields "sse" "single-add-" single_add_page)))
    = Some e' ∧
    same_but_display_required
      (Element "select" "single-add-server_type" [] [] [] "stdio" false) e' ∧
    ((∀ t, t ∈ toggle_suffixes →
           Dom.getElementById ("single-add-" +:+ t) (document single_add_page)
           ≠ Some [0; 0; 0]) →
     e' = Element "select" "single-add-server_type" [] [] [] "stdio" false).
Proof.
  apply (X2_toggle_writes_only_display_and_required "sse" "single-add-" single_add_page
           [0; 0; 0]).
  reflexivity.
Defined.

(** X3. Toggles for different prefixes do not interfere: in either order
    they leave the same document. *)
Theorem X3_toggles_of_different_prefixes_commute
    (v w prefixA prefixB : string) (σ : page) :
  prefixA ≠ prefixB →
  document (state_of ((toggleServerTypeSpecificFields v prefixA;;
                       toggleServerTypeSpecificFields w prefixB) σ))
  = document (state_of ((toggleServerTypeSpecificFields w prefixB;;
                         toggleServerTypeSpecificFields v prefixA) σ)).
Proof.
  intros HAB. unfold mbind, JS_bind.
  rewrite (toggle_run v prefixA σ), (toggle_run w prefixB σ), !toggle_run.
  cbn [state_of document]. rewrite !getElementById_apply_writes.
  symmetry. apply apply_writes_commute.
  eapply Forall_impl; [apply toggle_writes_targets|].
  intros w1 (t1 & Ht1 & Hw1). cbn beta.
  eapply Forall_impl; [apply toggle_writes_targets|].
  intros w2 (t2 & Ht2 & Hw2). cbn beta. apply slot_target.
  apply (distinct_refs prefixA prefixB t1 t2 (document σ));
    auto using toggle_suffixes_id_suffixes.
Qed.

Lemma X3_witness :
  document (state_of ((toggleServerTypeSpecificFields "sse" "single-add-";;
                       toggleServerTypeSpecificFields "stdio" "edit-") two_forms_page))
  = document (state_of ((toggleServerTypeSpecificFields "stdio" "edit-";;
                         toggleServerTypeSpecificFields "sse" "single-add-") two_forms_page)).
Proof.
  apply (X3_toggles_of_different_prefixes_commute "sse" "stdio" "single-add-" "edit-").
  discriminate.
Defined.

(** X4. The document a call leaves depends on the variant only through its
    class: two variants that are both "stdio", both one of "sse" and
    "streamable_http", or both neither, give the same document. *)
Theorem X4_toggle_depends_on_variant_class (v1 v2 formPrefix : string) (σ : page) :
  is_stdio v1 = is_stdio v2 → is_http v1 = is_http v2 →
  document (state_of (toggleServerTypeSpecificFields v1 formPrefix σ))
  = document (state_of (toggleServerTypeSpecificFields v2 formPrefix σ)).
Proof.
  intros Hs Hh. rewrite !toggle_run. cbn [state_of document].
  unfold toggle_writes. by rewrite Hs, Hh.
Qed.

Lemma X4_witness :
  document (state_of (toggleServerTypeSpecificFields "sse" "single-add-" single_add_page))
  = document (state_of (toggleServerTypeSpecificFields "streamable_http" "single-add-"
                          single_add_page)).
Proof.
  apply (X4_toggle_depends_on_variant_class "sse" "streamable_http" "single-add-"
           single_add_page); reflexivity.
Defined.

(** X5. An insertion whose container is present changes nothing but that
    container's child list: every element that was in the document keeps its
    reference and its data, every lookup by ID returns the same reference as
    before (the new row carries no IDs), and nothing is logged. *)
Theorem X5_insertion_disturbs_nothing
    (k : kind) (formPrefix : string) (σ : page) (c : path) :
  Dom.getElementById (formPrefix +:+ container_suffix k) (document σ) = Some c →
  ∃ σ',
    addRepeatableField k formPrefix σ = Normal () σ' ∧
    (∀ q e, element_at q (document σ) = Some e → element_at q (document σ') = Some e) ∧
    (∀ x, Dom.getElementById x (document σ') = Dom.getElementById x (document σ)) ∧
    console σ' = console σ ∧ listeners σ' = listeners σ.
Proof.
  intros Hc. pose proof (getElementById_add k formPrefix σ) as Hids.
  rewrite add_run, Hc in *. cbn [state_of] in Hids.
  eexists. split; [done|]. cbn [document console listeners] in *.
  split; [|by split]. intros q e. apply element_at_append.
Qed.

Lemma X5_witness :
  ∃ σ',
    addRepeatableField Argument "single-add-" single_add_toggled = Normal () σ' ∧
    (∀ q e, element_at q (document single_add_toggled) = Some e →
            element_at q (document σ') = Some e) ∧
    (∀ x, Dom.getElementById x (document σ')
          = Dom.getElementById x (document single_add_toggled)) ∧
    console σ' = console single_add_toggled ∧ listeners σ' = listeners single_add_toggled.
Proof.
  apply (X5_insertion_disturbs_nothing Argument "single-add-" single_add_toggled
           [0; 0; 1; 1]).
  reflexivity.
Defined.

(** X6. Consecutive insertions accumulate in insertion order: after [n]
    insertions of one kind the container's children are the previous children
    followed by [n] new rows, the container is still found under its ID, and
    nothing is logged. *)
Theorem X6_insertions_accumulate_in_order
    (k : kind) (formPrefix : string) (n : nat) (σ : page) (c : path) :
  Dom.getElementById (formPrefix +:+ container_suffix k) (document σ) = Some c →
  ∃ σ',
    forEach (λ _ : (), addRepeatableField k formPrefix) (replicate n ()) σ = Normal () σ' ∧
    children_at c (document σ')
    = children_at c (document σ) ++ replicate n (new_field_row (row_html k)) ∧
    Dom.getElementById (formPrefix +:+ container_suffix k) (document σ') = Some c ∧
    console σ' = console σ ∧ listeners σ' = listeners σ.
Proof.
  revert σ. induction n as [|n IH]; intros σ Hc.
  - exists σ. destruct σ. cbn [replicate forEach]. repeat split; try done.
    by rewrite app_nil_r.
  - cbn [replicate forEach]. unfold mbind, JS_bind.
    pose proof (getElementById_add k formPrefix σ (formPrefix +:+ container_suffix k)) as Hc1.
    destruct (getElementById_sound _ _ _ Hc) as (e & He & _).
    pose proof (children_at_alter_children
                  (λ ch, ch ++ [new_field_row (row_html k)]) c (document σ) e He) as Hch.
    rewrite add_run, Hc in *. cbn [state_of] in Hc1.
    destruct (IH _ Hc1) as (σ' & Hrun & Hch' & Hc' & Hcon & Hlis).
    exists σ'. split; [exact Hrun|]. cbn [document console listeners] in *.
    rewrite Hch', Hch, <- app_assoc. done.
Qed.

Lemma X6_witness :
  ∃ σ',
    forEach (λ _ : (), addRepeatableField Argument "edit-") (replicate 2 ()) two_forms_page
    = Normal () σ' ∧
    children_at [0; 0; 4; 1] (document σ')
    = children_at [0; 0; 4; 1] (document two_forms_page)
      ++ replicate 2 (new_field_row (row_html Argument)) ∧
    Dom.getElementById ("edit-" +:+ container_suffix Argument) (document σ')
    = Some [0; 0; 4; 1] ∧
    console σ' = console two_forms_page ∧ listeners σ' = listeners two_forms_page.
Proof.
  apply (X6_insertions_accumulate_in_order Argument "edit-" 2 two_forms_page [0; 0; 4; 1]).
  reflexivity.
Defined.

(** X7. Any row is removable on its own, wherever it stands: called on an
    element inside the [i]-th child of a node, that child carrying the class
    dynamic-field-row at its root and nowhere below, the removal takes exactly
    that child out of the parent's child list, logs nothing, and what is left
    of the document's elements is a sub-sequence of what was there. *)
Theorem X7_removal_takes_out_exactly_the_row
    (σ : page) (c q : path) (i : nat) (m : node) (e : element) :
  node_at (c ++ [i]) (document σ) = Some m →
  as_element m = Some e →
  Dom.has_class "dynamic-field-row" e = true →
  (∀ x e', x ≠ [] → sub_element x m = Some e' →
           Dom.has_class "dynamic-field-row" e' = false) →
  is_Some (sub_element q m) →
  ∃ σ',
    removeDynamicField (c ++ [i] ++ q) σ = Normal () σ' ∧
    children_at c (document σ') = delete i (children_at c (document σ)) ∧
    (elements_of (document σ')).*2 `sublist_of` (elements_of (document σ)).*2 ∧
    console σ' = console σ ∧ listeners σ' = listeners σ.
Proof.
  intros Hm He Hcls Hinner [e' Hq].
  assert (c ++ [i] ≠ []) as Hne by (by destruct c).
  rewrite remove_run, app_assoc, element_at_app, Hm by done. simpl. rewrite Hq.
  rewrite (closest_in_subtree _ _ _ _ m e) by done.
  eexists. split; [done|]. cbn [document console listeners].
  split; [apply children_at_remove_at|]. split; [apply elements_of_remove_at|done].
Qed.

Lemma X7_witness :
  ∃ σ',
    removeDynamicField ([0; 0; 1; 1] ++ [0] ++ [3; 1]) single_add_two_rows = Normal () σ' ∧
    children_at [0; 0; 1; 1] (document σ')
    = delete 0 (children_at [0; 0; 1; 1] (document single_add_two_rows)) ∧
    (elements_of (document σ')).*2 `sublist_of` (elements_of (document single_add_two_rows)).*2 ∧
    console σ' = console single_add_two_rows ∧ listeners σ' = listeners single_add_two_rows.
Proof.
  apply (X7_removal_takes_out_exactly_the_row single_add_two_rows [0; 0; 1; 1] [3; 1] 0
           (new_field_row (row_html Argument))
           (Element "div" "" ["row"; "dynamic-field-row"] [("margin-bottom", "5px")] [] "" false)).
  - reflexivity.
  - reflexivity.
  - reflexivity.
  - apply row_inner_no_marker.
  - vm_compute. eexists. reflexivity.
Defined.

(** X8. For a prefix that does not contain "server_type", the select with ID
    prefix + "server_type" is matched by the handler's selector and the
    handler derives exactly that prefix from the ID. *)
Theorem X8_prefix_derivation_round_trip (P : string) :
  includes P "server_type" = false →
  JsString.endsWith (P +:+ "server_type") "server_type" = true ∧
  formPrefix_of (P +:+ "server_type") = P.
Proof.
  intros Hinc. split; [apply endsWith_app|].
  apply replace_only_at_end. intros a b HP Hb.
  destruct (decide (String.length b < 11)%nat) as [Hlt|Hge].
  - by apply server_type_no_overlap.
  - rewrite prefix_app_long by (simpl; lia). by apply (includes_false_suffix P _ a b).
Qed.

Lemma X8_witness :
  JsString.endsWith ("single-add-" +:+ "server_type") "server_type" = true ∧
  formPrefix_of ("single-add-" +:+ "server_type") = "single-add-".
Proof. apply (X8_prefix_derivation_round_trip "single-add-"). reflexivity. Defined.

(** X9. Page load wires every server form once: if the third-party
    initializer returns normally and the label refresh returns normally
    without touching listeners, ids or values, the handler returns normally
    and has registered exactly one change listener per select whose ID ends
    with "server_type", in document order, each with the prefix derived from
    that ID. *)
Theorem X9_page_load_registers_one_listener_per_select
    (M_AutoInit : JS unit) (M_updateTextFields : path → JS unit) (σ σ0 : page) :
  M_AutoInit σ = Normal () σ0 →
  (∀ w τ, ∃ τ', M_updateTextFields w τ = Normal () τ' ∧
                listeners τ' = listeners τ ∧
                keys_preserved (document τ) (document τ')) →
  ∃ σ',
    onDOMContentLoaded M_AutoInit M_updateTextFields σ = Normal () σ' ∧
    listeners σ'
    = listeners σ0 ++ ((λ pe, (pe.1, formPrefix_of (id pe.2))) <$> discovered (document σ0)).
Proof.
  intros HA HU. unfold onDOMContentLoaded, mbind, JS_bind. rewrite HA.
  unfold console_emit. cbn [document console listeners].
  destruct (forEach_init_select M_updateTextFields (document σ0) (discovered (document σ0))
              (Page (document σ0)
                 ((console σ0 ++ [(LOG, "Materialize components initialized via M.AutoInit().")])
                  ++ [(LOG, "Found " +:+ pretty (length (discovered (document σ0)).*1)
                            +:+ " server type select(s) for initial state setup.")])
                 (listeners σ0)) HU) as (σ' & Hrun & _ & Hlis).
  - apply keys_preserved_refl.
  - apply Forall_forall. intros [r e] Hin. apply list_elem_of_filter in Hin as [_ Hin].
    by apply elements_of_sound.
  - exists σ'. split; [exact Hrun|exact Hlis].
Qed.

Lemma X9_witness :
  ∃ σ',
    onDOMContentLoaded (mret ()) (λ _, mret ()) two_forms_page = Normal () σ' ∧
    listeners σ'
    = listeners two_forms_page
      ++ ((λ pe, (pe.1, formPrefix_of (id pe.2))) <$> discovered (document two_forms_page)).
Proof.
  apply (X9_page_load_registers_one_listener_per_select (mret ()) (λ _, mret ())
           two_forms_page two_forms_page).
  - reflexivity.
  - intros w τ. exists τ. split; [reflexivity|]. split; [reflexivity|].
    intros q. reflexivity.
Defined.

(** X10. A change event on a wired select re-applies the toggle with the
    select's current value and the prefix captured at page load: whatever was
    shown before, afterwards the document is the one the toggle leaves for
    that value, so the form satisfies the invariant and shows the section of
    the current value; the listeners stay as they are. *)
Theorem X10_change_event_applies_current_value
    (σ : page) (r : path) (sel : element) (formPrefix : string) :
  element_at r (document σ) = Some sel →
  filter (λ l, l.1 = r) (listeners σ) = [(r, formPrefix)] →
  ∃ σ',
    on_change r σ = Normal () σ' ∧
    document σ'
    = document (state_of (toggleServerTypeSpecificFields (value sel) formPrefix σ)) ∧
    listeners σ' = listeners σ ∧
    consistent (document σ') formPrefix ∧
    (∀ e, lookup_element (formPrefix +:+ "stdio-fields-container") (document σ') = Some e →
          display e = if is_stdio (value sel) then "block" else "none") ∧
    (∀ e, lookup_element (formPrefix +:+ "http-fields-container") (document σ') = Some e →
          display e = if is_http (value sel) then "block" else "none").
Proof.
  intros Hsel Hregs.
  pose proof (toggle_establishes_consistent (value sel) formPrefix σ) as Hcons.
  pose proof (toggle_effects (value sel) formPrefix σ) as E. cbv zeta in E.
  destruct E as (Es & Eh & _ & _).
  unfold on_change, mbind, JS_bind. rewrite Hregs. cbn [forEach snd].
  unfold mbind, JS_bind, read_element. rewrite Hsel.
  unfold console_emit at 1. rewrite toggle_run in *. cbn [state_of document] in *.
  cbn [mret JS_ret document console listeners].
  eexists. split; [done|]. cbn [document listeners].
  split; [by rewrite toggle_run|]. split; [done|].
  split; [exact Hcons|]. split; [exact Es|exact Eh].
Qed.

Lemma X10_witness :
  ∃ σ',
    on_change [0; 0; 0] single_add_sse_picked = Normal () σ' ∧
    document σ'
    = document (state_of (toggleServerTypeSpecificFields "sse" "single-add-"
                            single_add_sse_picked)) ∧
    listeners σ' = listeners single_add_sse_picked ∧
    consistent (document σ') "single-add-" ∧
    (∀ e, lookup_element ("single-add-" +:+ "stdio-fields-container") (document σ') = Some e →
          display e = if is_stdio "sse" then "block" else "none") ∧
    (∀ e, lookup_element ("single-add-" +:+ "http-fields-container") (document σ') = Some e →
          display e = if is_http "sse" then "block" else "none").
Proof.
  apply (X10_change_event_applies_current_value single_add_sse_picked [0; 0; 0]
           (Element "select" "single-add-server_type" [] [] [] "sse" false) "single-add-").
  - reflexivity.
  - reflexivity.
Defined.

(** X11. The toggle and an insertion do not interfere, for any two prefixes
    (equal or not): toggling and then inserting a row leaves the same
    document as inserting the row and then toggling. *)
Theorem X11_toggle_and_insertion_commute
    (serverType formPrefix : string) (k : kind) (rowPrefix : string) (σ : page) :
  document (state_of ((toggleServerTypeSpecificFields serverType formPrefix;;
                       addRepeatableField k rowPrefix) σ))
  = document (state_of ((addRepeatableField k rowPrefix;;
                         toggleServerTypeSpecificFields serverType formPrefix) σ)).
Proof.
  unfold mbind, JS_bind. rewrite (toggle_run serverType formPrefix σ).
  rewrite !add_run. cbn [document]. rewrite getElementById_apply_writes.
  destruct (Dom.getElementById (rowPrefix +:+ container_suffix k) (document σ)) as [c|];
    rewrite toggle_run; cbn [state_of document]; [|done].
  rewrite !getElementById_append
    by (apply row_matches_no_id, prefixed_id_nonempty; suffix_solver).
  symmetry. apply apply_writes_append_commute.
  eapply Forall_impl; [apply toggle_writes_targets|].
  intros w (t & _ & Hw). simpl.
  destruct (getElementById_sound _ _ _ Hw) as (e & He & _). by eexists.
Qed.

(** X12. Page load establishes the initial state of every form: if the
    third-party initializer returns normally and the label refresh returns
    normally without touching listeners, ids, values, or the display and
    required state of elements found by ID, then after the handler every
    discovered select's form (under the prefix derived from its ID) has at
    most one section visible and each input required iff its section is
    visible; toggles for later forms do not undo earlier ones. *)
Theorem X12_page_load_establishes_invariant_for_every_form
    (M_AutoInit : JS unit) (M_updateTextFields : path → JS unit) (σ σ0 : page) :
  M_AutoInit σ = Normal () σ0 →
  (∀ w τ, ∃ τ', M_updateTextFields w τ = Normal () τ' ∧
                listeners τ' = listeners τ ∧
                keys_preserved (document τ) (document τ') ∧
                lookups_preserved (document τ) (document τ')) →
  ∃ σ',
    onDOMContentLoaded M_AutoInit M_updateTextFields σ = Normal () σ' ∧
    Forall (λ pe, consistent (document σ') (formPrefix_of (id pe.2)))
           (discovered (document σ0)).
Proof.
  intros HA HU. unfold onDOMContentLoaded, mbind, JS_bind. rewrite HA.
  unfold console_emit. cbn [document console listeners].
  destruct (forEach_init_select_establishes M_updateTextFields (document σ0)
              (discovered (document σ0)) []
              (Page (document σ0)
                 ((console σ0 ++ [(LOG, "Materialize components initialized via M.AutoInit().")])
                  ++ [(LOG, "Found " +:+ pretty (length (discovered (document σ0)).*1)
                            +:+ " server type select(s) for initial state setup.")])
                 (listeners σ0)) HU) as (σ' & Hrun & Hall).
  - apply keys_preserved_refl.
  - apply Forall_forall. intros [r e] Hin. apply list_elem_of_filter in Hin as [_ Hin].
    by apply elements_of_sound.
  - apply Forall_nil_2.
  - exists σ'. split; [exact Hrun|exact Hall].
Qed.

Lemma X12_witness :
  ∃ σ',
    onDOMContentLoaded (mret ()) (λ _, mret ()) two_forms_page = Normal () σ' ∧
    Forall (λ pe, consistent (document σ') (formPrefix_of (id pe.2)))
           (discovered (document two_forms_page)).
Proof.
  apply (X12_page_load_establishes_invariant_for_every_form (mret ()) (λ _, mret ())
           two_forms_page two_forms_page).
  - reflexivity.
  - intros w τ. exists τ. split; [reflexivity|]. split; [reflexivity|].
    split; [intros q; reflexivity|]. intros x e' He'. exists e'. by repeat split.
Defined.
